(** * Shoelace widgets: multi-range slider, tree selection, pointer drag

    A shallow embedding of
      - [src/components/multi-range/multi-range.component.ts]  (module [MultiRange]),
      - [src/components/tree/tree.ts]                          (module [Tree]),
      - the pointer-drag helper [drag]                         (module [Drag]),
    together with the properties stated about them.

    Numbers.  A JavaScript [number] is modelled as a rational [Q]; numeric
    equality ([===] on numbers) is [Qeq], written [==].  NaN and the
    infinities have no counterpart, and [x / 0] is [0] in [Q]: the divisions
    of the source are by [step], positive once the range is corrected, and
    by [max - min], which [#updateActiveTrack] guards and which in
    [#onDragHandle] yields the value [min] both here and in JavaScript when
    the bounds coincide.  The handlers are embedded with exact arithmetic:
    what is stated of them (order, bounds, events, the slider map) does not
    depend on how a result is rounded, and the concrete inputs used for
    them are small integers and dyadic fractions whose roundings are far
    from a tie, so that IEEE-754 arithmetic gives the same results.  Where
    the rounding of doubles matters, in the normalisation pass and in the
    geometry of the active track, the embedding is given a second time with
    the rounding of every operation written out ([willUpdate_fl],
    [trackGeometry_fl]), and rounding to the nearest double is defined
    ([binary64]) and shown to be such a rounding.

    The DOM.  The items of a tree are the list [treeItems] in document
    order; an item is its position in that list and knows the position of
    its parent item.  Walks along parent and child links carry a bound on
    their depth and are shown to return. *)

From Stdlib Require Import QArith Qround Qabs Qpower Lqa Lia ZArith List Bool String.
From Stdlib Require Import Sorting.Sorted Sorting.Permutation Sorting.Mergesort Orders.
From Stdlib Require Import Setoid Morphisms.
From stdpp Require Import base option list sorting.

Import ListNotations.
Local Open Scope Q_scope.

(** ** Multi-range slider *)

Module MultiRange.

(** [const numericSort = function (a, b) { return a - b; }] *)
Definition numericSort (a b : Q) : Q := a - b.

(** [Array.prototype.sort(cmp)] places [a] before [b] when [cmp(a, b) <= 0]
    and is stable; the order it induces with [numericSort] is packaged for
    the Standard Library's merge sort. *)
Module NumericOrder <: Orders.TotalLeBool.

Definition t : Type := Q.

Definition leb (a b : Q) : bool := Qle_bool (numericSort a b) 0.

Theorem leb_total : forall a b, leb a b = true \/ leb b a = true.
Proof.
  intros a b. unfold leb, numericSort.
  destruct (Qlt_le_dec b a) as [Hlt | Hle].
  - right. apply Qle_bool_iff. lra.
  - left. apply Qle_bool_iff. lra.
Qed.

End NumericOrder.

Module NumericSort := Sort NumericOrder.

(** [xs.sort(numericSort)] *)
Definition sort (xs : list Q) : list Q := NumericSort.sort xs.

(** [Math.round]: nearest integer, halves rounded towards plus infinity. *)
Definition Math_round (x : Q) : Z := Qfloor (x + (1 # 2)).

(** [Math.min] and [Math.max] on two numbers. *)
Definition Math_min (a b : Q) : Q := if Qle_bool a b then a else b.
Definition Math_max (a b : Q) : Q := if Qle_bool a b then b else a.

(** Strict comparisons as booleans. *)
Definition Qgt_bool (a b : Q) : bool := negb (Qle_bool a b).

(** [arraysDiffer(a, b)]: the lengths differ or some position holds
    different numbers. *)
Fixpoint arraysDiffer (a b : list Q) : bool :=
  match a, b with
  | [], [] => false
  | x :: a', y :: b' => if Qeq_bool x y then arraysDiffer a' b' else true
  | _, _ => true
  end.

(** Events emitted by the component. *)
Inductive Emitted : Type := sl_change | sl_input.

(** How the active track is displayed. *)
Inductive Display : Type := display_none | display_inline_block.

(** The style written on the [.active-track] element; [left] and [width]
    are percentages. *)
Record TrackStyle : Type := mkTrack {
  track_display : Display;
  track_left : Q;
  track_width : Q
}.

(** The component's fields.  [sliderValues] is the insertion-ordered
    [Map<number, number>] from the slider id of a rendered handle to its
    value; [value] is the private [#value]; [activeTrack] is the
    [.active-track] element, absent before the first render. *)
Record SlMultiRange : Type := mkRange {
  disabled : bool;
  min : Q;
  max : Q;
  step : Q;
  value : list Q;
  sliderValues : list (nat * Q);
  nextId : nat;
  activeTrack : option TrackStyle
}.

Definition set_range (s : SlMultiRange) (mn mx st : Q) : SlMultiRange :=
  mkRange (disabled s) mn mx st (value s) (sliderValues s) (nextId s) (activeTrack s).

Definition set_value (s : SlMultiRange) (v : list Q) : SlMultiRange :=
  mkRange (disabled s) (min s) (max s) (step s) v (sliderValues s) (nextId s) (activeTrack s).

Definition set_sliderValues (s : SlMultiRange) (m : list (nat * Q)) : SlMultiRange :=
  mkRange (disabled s) (min s) (max s) (step s) (value s) m (nextId s) (activeTrack s).

Definition set_nextId (s : SlMultiRange) (n : nat) : SlMultiRange :=
  mkRange (disabled s) (min s) (max s) (step s) (value s) (sliderValues s) n (activeTrack s).

Definition set_activeTrack (s : SlMultiRange) (t : option TrackStyle) : SlMultiRange :=
  mkRange (disabled s) (min s) (max s) (step s) (value s) (sliderValues s) (nextId s) t.

(** *** [willUpdate] *)

(** Lines 115-125: the three corrections of [min], [max] and [step], in the
    order of the source. *)
Definition correctRange (s : SlMultiRange) : SlMultiRange :=
  let s1 := if Qgt_bool (min s) (max s)
            then set_range s (max s) (min s) (step s) else s in
  let s2 := if Qgt_bool (step s1) (max s1 - min s1)
            then set_range s1 (min s1) (max s1) (max s1 - min s1) else s1 in
  if Qle_bool (step s2) 0
  then set_range s2 (min s2) (max s2) 1 else s2.

(** The callback mapped over [#value] on lines 128-134. *)
Definition adjust (s : SlMultiRange) (v : Q) : Q :=
  if Qle_bool v (min s) then min s
  else if Qle_bool (max s) v then max s
  else
    let v' := min s + step s * inject_Z (Math_round ((v - min s) / step s)) in
    if Qgt_bool v' (max s) then max s else v'.

(** [willUpdate(changedProperties)]; [changedValue] is
    [changedProperties.has('value')].  Returns the new state and the events
    emitted. *)
Definition willUpdate (changedValue : bool) (s : SlMultiRange)
  : SlMultiRange * list Emitted :=
  let s := correctRange s in
  let adjustedValue := sort (List.map (adjust s) (value s)) in
  if arraysDiffer (value s) adjustedValue
  then (set_value s adjustedValue,
        if changedValue then [] else [sl_change])
  else (s, []).

(** *** The slider-id map *)

(** [map.has(k)], [map.get(k)], [map.set(k, v)] and [map.values()] of an
    insertion-ordered map: setting an existing key keeps its position. *)
Fixpoint map_get (k : nat) (m : list (nat * Q)) : option Q :=
  match m with
  | [] => None
  | (k', v) :: m' => if Nat.eqb k k' then Some v else map_get k m'
  end.

Definition map_has (k : nat) (m : list (nat * Q)) : bool :=
  match map_get k m with Some _ => true | None => false end.

Fixpoint map_set (k : nat) (v : Q) (m : list (nat * Q)) : list (nat * Q) :=
  match m with
  | [] => [(k, v)]
  | (k', v') :: m' =>
      if Nat.eqb k k' then (k, v) :: m' else (k', v') :: map_set k v m'
  end.

Definition map_values (m : list (nat * Q)) : list Q := List.map snd m.

(** *** [render] *)

(** [render()] clears the map and mints one fresh slider id per value. *)
Fixpoint render_handles (vs : list Q) (next : nat) (m : list (nat * Q))
  : nat * list (nat * Q) :=
  match vs with
  | [] => (next, m)
  | v :: vs' => render_handles vs' (S next) (map_set next v m)
  end.

Definition render (s : SlMultiRange) : SlMultiRange :=
  let '(next, m) := render_handles (value s) (nextId s) [] in
  set_nextId (set_sliderValues s m) next.

(** *** [#updateActiveTrack] *)

(** The style computed on lines 217-229. *)
Definition trackGeometry (s : SlMultiRange) : TrackStyle :=
  if Qeq_bool (min s) (max s) || Nat.ltb (List.length (value s)) 2
  then mkTrack display_none 0 0
  else
    let first := List.nth 0 (value s) 0 in
    let last := List.last (value s) 0 in
    let start := (100 * (first - min s)) / (max s - min s) in
    let span := (100 * (last - first)) / (max s - min s) in
    mkTrack display_inline_block start span.

Definition updateActiveTrack (s : SlMultiRange) : SlMultiRange :=
  match activeTrack s with
  | None => s
  | Some _ => set_activeTrack s (Some (trackGeometry s))
  end.

(** [updated()]: the handles are re-positioned (styling only) and the
    active track is recomputed. *)
Definition updated (s : SlMultiRange) : SlMultiRange := updateActiveTrack s.

(** *** Pointer handling *)

(** A rendered handle: its [data-slider-id], the pointer id it has captured
    ([data-pointer-id]) and its [clientWidth]. *)
Record Handle : Type := mkHandle {
  dataset_sliderId : nat;
  dataset_pointerId : option nat;
  clientWidth : Q
}.

(** A pointer event on a handle, with the bounding rectangle of [.base] at
    the time of the event. *)
Record PointerEvent : Type := mkPointer {
  target : Handle;
  pointerId : nat;
  clientX : Q;
  bounds_left : Q;
  bounds_width : Q
}.

(** [#getNormalizedValueFromClientX(handle, x)] *)
Definition getNormalizedValueFromClientX (ev : PointerEvent) : Q :=
  let handle := target ev in
  let size := bounds_width ev - clientWidth handle in
  if Qle_bool size 0 then 0
  else
    let x := clientX ev - (bounds_left ev + clientWidth handle / 2) in
    if Qle_bool x 0 then 0
    else if Qle_bool size x then 1
    else x / size.

(** The value computed on lines 189-190 from the pointer fraction [pos]. *)
Definition dragValue (s : SlMultiRange) (pos : Q) : Q :=
  let unit := step s / (max s - min s) in
  min s + step s * inject_Z (Math_round (pos / unit)).

(** [#onClickHandle(event)]: the handle after the press. *)
Definition onClickHandle (s : SlMultiRange) (ev : PointerEvent) : Handle :=
  let handle := target ev in
  if disabled s
  then mkHandle (dataset_sliderId handle) (dataset_pointerId handle) (clientWidth handle)
  else mkHandle (dataset_sliderId handle) (Some (pointerId ev)) (clientWidth handle).

(** [#onDragHandle(event)] *)
Definition onDragHandle (s : SlMultiRange) (ev : PointerEvent)
  : SlMultiRange * list Emitted :=
  if disabled s then (s, [])
  else
    let handle := target ev in
    let sliderId := dataset_sliderId handle in
    if negb (map_has sliderId (sliderValues s)) then (s, [])
    else
      match dataset_pointerId handle with
      | None => (s, [])
      | Some pid =>
          if negb (Nat.eqb pid (pointerId ev)) then (s, [])
          else
            let pos := getNormalizedValueFromClientX ev in
            let v := dragValue s pos in
            let s1 := set_sliderValues s (map_set sliderId v (sliderValues s)) in
            let prevValue := value s1 in
            let s2 := set_value s1 (sort (map_values (sliderValues s1))) in
            let s3 := updateActiveTrack s2 in
            (s3, if arraysDiffer prevValue (value s3) then [sl_input] else [])
      end.

(** [#onReleaseHandle(event)]: the handle after the release and the events
    emitted. *)
Definition onReleaseHandle (ev : PointerEvent) : Handle * list Emitted :=
  let handle := target ev in
  match dataset_pointerId handle with
  | None => (handle, [])
  | Some pid =>
      if negb (Nat.eqb (pointerId ev) pid) then (handle, [])
      else (mkHandle (dataset_sliderId handle) None (clientWidth handle),
            [sl_change])
  end.

(** *** Keyboard handling *)

Record KeyboardEvent : Type := mkKey {
  key_target : Handle;
  key : string
}.

Definition key_in (k : string) (ks : list string) : bool :=
  List.existsb (String.eqb k) ks.

(** The [switch] on lines 239-266: the new value, or [None] for a key that
    is not handled. *)
Definition keyValue (s : SlMultiRange) (k : string) (v : Q) : option Q :=
  if key_in k ["ArrowUp"; "ArrowRight"; "Up"; "Right"]%string
  then Some (Math_min (v + step s) (max s))
  else if key_in k ["ArrowDown"; "ArrowLeft"; "Down"; "Left"]%string
  then Some (Math_max (v - step s) (min s))
  else if String.eqb k "PageUp"
  then Some (Math_min (v + 10 * step s) (max s))
  else if String.eqb k "PageDown"
  then Some (Math_max (v - 10 * step s) (min s))
  else if String.eqb k "Home" then Some (min s)
  else if String.eqb k "End" then Some (max s)
  else None.

(** [#onKeyPress(event)]: the new state, the events emitted, and whether
    [preventDefault] was called. *)
Definition onKeyPress (s : SlMultiRange) (ev : KeyboardEvent)
  : SlMultiRange * list Emitted * bool :=
  let sliderId := dataset_sliderId (key_target ev) in
  match map_get sliderId (sliderValues s) with
  | None => (s, [], false)
  | Some old =>
      match keyValue s (key ev) old with
      | None => (s, [], false)
      | Some v =>
          if negb (Qeq_bool v old)
          then
            let s1 := set_sliderValues s (map_set sliderId v (sliderValues s)) in
            let s2 := set_value s1 (sort (map_values (sliderValues s1))) in
            let s3 := updateActiveTrack s2 in
            (s3, [sl_input; sl_change], true)
          else (s, [], true)
      end
  end.

(** *** Derived notions and concrete sliders *)

(** A range with a non-positive step and bounds half a unit apart. *)
Definition half_unit_range : SlMultiRange :=
  mkRange false 0 (1 # 2) 0 [] [] 1 None.


(** A slider on [min = 0], [max = 8], [step = 3] with two handles, at [0]
    and at [6], rendered with slider ids [1] and [2]. *)
Definition eighths_range : SlMultiRange :=
  mkRange false 0 8 3 [0; 6] [(1%nat, 0); (2%nat, 6)] 3
          (Some (mkTrack display_inline_block 0 75)).

(** The second handle, holding pointer [7], dragged far to the right of a
    track that is 200 pixels wide and starts at pixel 0. *)
Definition drag_right : PointerEvent :=
  mkPointer (mkHandle 2 (Some 7%nat) 20) 7 500 0 200.

(** The same range with the values the drag leaves behind. *)
Definition overshot_range : SlMultiRange :=
  set_value eighths_range [0; 9].

(** *** Further notions used to state the properties *)

(** What a handler may not disturb: the bounds and the step, the handles
    that exist, and the agreement between the stored values and the values
    of the handles. *)
Definition handles_kept (s s' : SlMultiRange) : Prop :=
  (min s' = min s /\ max s' = max s /\ step s' = step s) /\
  List.map fst (sliderValues s') = List.map fst (sliderValues s) /\
  Permutation (map_values (sliderValues s')) (value s') /\
  List.length (value s') = List.length (value s).

(** A number lies within the bounds of the slider. *)
Definition in_range (s : SlMultiRange) (v : Q) : Prop :=
  min s <= v /\ v <= max s.

(** *** Floating-point arithmetic

    The arithmetic of lines 120-121, 131 and 224-225 is that of IEEE-754
    doubles: each of [+], [-], [*] and [/] returns the double nearest to
    the exact result.  The definitions below write that rounding out: [fl]
    takes the exact result of an operation to the number the operation
    returns.  Comparisons are exact, and so is [Math.round], whose result
    on a double is a double.  With the identity for [fl] these are
    [correctRange], [adjust], [willUpdate] and [trackGeometry]. *)
Definition correctRange_fl (fl : Q -> Q) (s : SlMultiRange) : SlMultiRange :=
  let s1 := if Qgt_bool (min s) (max s)
            then set_range s (max s) (min s) (step s) else s in
  let s2 := if Qgt_bool (step s1) (fl (max s1 - min s1))
            then set_range s1 (min s1) (max s1) (fl (max s1 - min s1)) else s1 in
  if Qle_bool (step s2) 0
  then set_range s2 (min s2) (max s2) 1 else s2.

Definition adjust_fl (fl : Q -> Q) (s : SlMultiRange) (v : Q) : Q :=
  if Qle_bool v (min s) then min s
  else if Qle_bool (max s) v then max s
  else
    let steps := Math_round (fl (fl (v - min s) / step s)) in
    let v' := fl (min s + fl (step s * inject_Z steps)) in
    if Qgt_bool v' (max s) then max s else v'.

Definition willUpdate_fl (fl : Q -> Q) (changedValue : bool) (s : SlMultiRange)
  : SlMultiRange * list Emitted :=
  let s := correctRange_fl fl s in
  let adjustedValue := sort (List.map (adjust_fl fl s) (value s)) in
  if arraysDiffer (value s) adjustedValue
  then (set_value s adjustedValue,
        if changedValue then [] else [sl_change])
  else (s, []).

Definition trackGeometry_fl (fl : Q -> Q) (s : SlMultiRange) : TrackStyle :=
  if Qeq_bool (min s) (max s) || Nat.ltb (List.length (value s)) 2
  then mkTrack display_none 0 0
  else
    let first := List.nth 0 (value s) 0 in
    let last := List.last (value s) 0 in
    let start := fl (fl (100 * fl (first - min s)) / fl (max s - min s)) in
    let span := fl (fl (100 * fl (last - first)) / fl (max s - min s)) in
    mkTrack display_inline_block start span.




(** Rounding to the nearest double.  [pow2 e] is [2^e]; [round_half_even]
    rounds to the nearest integer, a tie going to the even one; [exponent x]
    is the [e] with [2^e <= x < 2^(e+1)] for a positive [x].  A double has
    53 significant bits; the range of the exponent is left unbounded, so
    that overflow and the subnormal numbers are not represented. *)
Definition pow2 (e : Z) : Q := 2 ^ e.

Definition round_half_even (y : Q) : Z :=
  let f := Qfloor y in
  match Qcompare (y - inject_Z f) (1 # 2) with
  | Lt => f
  | Gt => (f + 1)%Z
  | Eq => if Z.even f then f else (f + 1)%Z
  end.

Definition exponent (x : Q) : Z :=
  let a := (Z.log2 (Qnum x) - Z.log2 (Zpos (Qden x)))%Z in
  if Qle_bool (pow2 a) x then a else (a - 1)%Z.

Definition binary64 (x : Q) : Q :=
  match Qnum x with
  | Z0 => 0
  | Zpos _ =>
      let e := (exponent x - 52)%Z in
      Qred (inject_Z (round_half_even (x / pow2 e)) * pow2 e)
  | Zneg _ =>
      let e := (exponent (- x) - 52)%Z in
      Qred (- (inject_Z (round_half_even ((- x) / pow2 e)) * pow2 e))
  end.


(** The range [min = 1], [max = 11] with the step [0.1] and the values
    [1.7000000000000002] and [11], as a normalisation pass leaves them. *)
Definition decade_range : SlMultiRange :=
  mkRange false 1 11 (binary64 (1 # 10))
          [1914029841632461 # 1125899906842624; 11] [] 1 None.

End MultiRange.

(** ** Tree selection *)

Module Tree.

Local Open Scope nat_scope.

(** A [<sl-tree-item>].  The tree's items are kept in document order, as in
    the live collection [treeItems]; an item is referred to by its position
    there, and [parentElement] is the position of the enclosing tree item
    ([None] when the item sits directly under the [<sl-tree>]). *)
Record SlTreeItem : Type := mkItem {
  parentElement : option nat;
  selected : bool;
  indeterminate : bool;
  disabled : bool;
  expanded : bool;
  lazy : bool;
  loading : bool;
  selectable : bool
}.

Inductive Selection : Type := single | multiple | leaf.

Definition Selection_eqb (a b : Selection) : bool :=
  match a, b with
  | single, single | multiple, multiple | leaf, leaf => true
  | _, _ => false
  end.

Record SlTree : Type := mkTree {
  selection : Selection;
  treeItems : list SlTreeItem
}.

Definition set_selected (b : bool) (it : SlTreeItem) : SlTreeItem :=
  mkItem (parentElement it) b (indeterminate it) (disabled it) (expanded it)
         (lazy it) (loading it) (selectable it).

Definition set_indeterminate (b : bool) (it : SlTreeItem) : SlTreeItem :=
  mkItem (parentElement it) (selected it) b (disabled it) (expanded it)
         (lazy it) (loading it) (selectable it).

Definition set_expanded (b : bool) (it : SlTreeItem) : SlTreeItem :=
  mkItem (parentElement it) (selected it) (indeterminate it) (disabled it) b
         (lazy it) (loading it) (selectable it).

Definition set_selectable (b : bool) (it : SlTreeItem) : SlTreeItem :=
  mkItem (parentElement it) (selected it) (indeterminate it) (disabled it)
         (expanded it) (lazy it) (loading it) b.

(** Reading a property of the item at position [i]. *)
Definition prop (f : SlTreeItem -> bool) (i : nat) (d : list SlTreeItem) : bool :=
  match d !! i with
  | Some it => f it
  | None => false
  end.

(** [item.parentElement] when it is a tree item. *)
Definition parentItemOf (i : nat) (d : list SlTreeItem) : option nat :=
  match d !! i with
  | Some it => parentElement it
  | None => None
  end.

(** Modelled from the spec: [getChildrenItems({ includeDisabled })] of
    [tree-item.ts], which is not part of the sources at hand.  It
    enumerates the child tree items of an item, in document order; disabled
    children are left out when [includeDisabled] is [false], and the option
    defaults to [true]. *)
Definition getChildrenItems (includeDisabled : bool) (i : nat)
    (d : list SlTreeItem) : list nat :=
  List.filter
    (fun j =>
       match d !! j with
       | Some it =>
           match parentElement it with
           | Some p => Nat.eqb p i && (includeDisabled || negb (disabled it))
           | None => false
           end
       | None => false
       end)
    (List.seq 0 (List.length d)).

(** Modelled from the spec: [isLeaf] of [tree-item.ts], derived as
    "no children". *)
Definition isLeaf (i : nat) (d : list SlTreeItem) : bool :=
  match getChildrenItems true i d with
  | [] => true
  | _ => false
  end.

(** A [for ... of] loop whose body may fail to return. *)
Fixpoint for_of {A S : Type} (body : A -> S -> option S) (xs : list A) (s : S)
  : option S :=
  match xs with
  | [] => Some s
  | x :: xs' =>
      match body x s with
      | Some s' => for_of body xs' s'
      | None => None
      end
  end.

(** [syncAncestors(treeItem)].  The recursion follows parent links; [fuel]
    bounds its depth and running out of it yields [None]. *)
Fixpoint syncAncestors (fuel : nat) (treeItem : nat) (d : list SlTreeItem)
  : option (list SlTreeItem) :=
  match fuel with
  | O => None
  | S fuel' =>
      match parentItemOf treeItem d with
      | Some parentItem =>
          let children := getChildrenItems false parentItem d in
          let allChecked := List.forallb (fun c => prop selected c d) children in
          let allUnchecked :=
            List.forallb
              (fun c => negb (prop selected c d) && negb (prop indeterminate c d))
              children in
          let d1 := alter (set_selected allChecked) parentItem d in
          let d2 :=
            alter (set_indeterminate (negb allChecked && negb allUnchecked))
                  parentItem d1 in
          syncAncestors fuel' parentItem d2
      | None => Some d
      end
  end.

(** [syncDescendants(treeItem)], with the same convention for [fuel]. *)
Fixpoint syncDescendants (fuel : nat) (treeItem : nat) (d : list SlTreeItem)
  : option (list SlTreeItem) :=
  match fuel with
  | O => None
  | S fuel' =>
      for_of
        (fun childItem d =>
           let d1 :=
             alter (set_selected (negb (prop disabled childItem d)
                                  && prop selected treeItem d))
                   childItem d in
           syncDescendants fuel' childItem d1)
        (getChildrenItems true treeItem d) d
  end.

(** [syncCheckboxes(changedTreeItem)]: ancestors first, then descendants.
    Neither walk is longer than the number of items. *)
Definition syncCheckboxes (changedTreeItem : nat) (d : list SlTreeItem)
  : option (list SlTreeItem) :=
  match syncAncestors (S (List.length d)) changedTreeItem d with
  | Some d1 => syncDescendants (S (List.length d1)) changedTreeItem d1
  | None => None
  end.

(** [handleSelectionChange()] *)
Definition handleSelectionChange (t : SlTree) : SlTree :=
  mkTree (selection t)
         (List.map (set_selectable (Selection_eqb (selection t) multiple))
                   (treeItems t)).

(** [syncTreeItems(selectedItem)] *)
Definition syncTreeItems (selectedItem : nat) (t : SlTree) : option SlTree :=
  if Selection_eqb (selection t) multiple
  then
    match syncCheckboxes selectedItem (treeItems t) with
    | Some d => Some (mkTree (selection t) d)
    | None => None
    end
  else
    Some (mkTree (selection t)
            (imap (fun j it =>
                     if negb (Nat.eqb j selectedItem)
                     then set_selected false it else it)
                  (treeItems t))).

(** [get selectedItems()] *)
Definition selectedItems (t : SlTree) : list nat :=
  List.filter (fun i => prop selected i (treeItems t))
              (List.seq 0 (List.length (treeItems t))).

Definition with_items (t : SlTree) (d : list SlTreeItem) : SlTree :=
  mkTree (selection t) d.

(** [selectItem(selectedItem)]: the tree afterwards and the [selection]
    carried by the [sl-selection-change] event. *)
Definition selectItem (selectedItem : nat) (t : SlTree)
  : option (SlTree * list nat) :=
  let after :=
    if Selection_eqb (selection t) multiple then
      let t1 :=
        with_items t
          (alter (fun it => set_selected (negb (selected it)) it)
                 selectedItem (treeItems t)) in
      let t2 :=
        if prop lazy selectedItem (treeItems t1)
        then with_items t1 (alter (set_expanded true) selectedItem (treeItems t1))
        else t1 in
      syncTreeItems selectedItem t2
    else if Selection_eqb (selection t) single || isLeaf selectedItem (treeItems t) then
      let t1 :=
        with_items t (alter (set_selected true) selectedItem (treeItems t)) in
      syncTreeItems selectedItem t1
    else if Selection_eqb (selection t) leaf then
      Some (with_items t
              (alter (fun it => set_expanded (negb (expanded it)) it)
                     selectedItem (treeItems t)))
    else Some t in
  match after with
  | Some t' => Some (t', selectedItems t')
  | None => None
  end.

(** [getFocusableItems()] *)
Definition getFocusableItems (t : SlTree) : list nat :=
  List.filter
    (fun i =>
       if prop disabled i (treeItems t) then false
       else
         match parentItemOf i (treeItems t) with
         | None => true
         | Some parent =>
             prop expanded parent (treeItems t)
             && negb (prop loading parent (treeItems t))
         end)
    (List.seq 0 (List.length (treeItems t))).

(** *** Notions used to state the properties *)

(** The items are in document order: a parent item precedes its children. *)
Definition document_order (d : list SlTreeItem) : Prop :=
  forall i p : nat, parentItemOf i d = Some p -> p < i.

(** The same, as a test. *)
Definition document_orderb (d : list SlTreeItem) : bool :=
  List.forallb
    (fun i =>
       match parentItemOf i d with
       | Some p => p <? i
       | None => true
       end)
    (List.seq 0 (List.length d)).

(** [ancestor d a i]: [a] is a proper ancestor of [i]. *)
Inductive ancestor (d : list SlTreeItem) (a : nat) : nat -> Prop :=
  | ancestor_parent (i : nat) :
      parentItemOf i d = Some a -> ancestor d a i
  | ancestor_above (i p : nat) :
      parentItemOf i d = Some p -> ancestor d a p -> ancestor d a i.

(** All non-disabled children of [p] are selected. *)
Definition all_selected (d : list SlTreeItem) (p : nat) : Prop :=
  forall c : nat,
    In c (getChildrenItems false p d) -> prop selected c d = true.

(** All non-disabled children of [p] are neither selected nor
    indeterminate. *)
Definition all_clear (d : list SlTreeItem) (p : nat) : Prop :=
  forall c : nat,
    In c (getChildrenItems false p d) ->
    prop selected c d = false /\ prop indeterminate c d = false.

Definition consistent_selected (d : list SlTreeItem) (p : nat) : Prop :=
  prop selected p d = true <-> all_selected d p.

Definition consistent_indeterminate (d : list SlTreeItem) (p : nat) : Prop :=
  prop indeterminate p d = true <-> ~ all_selected d p /\ ~ all_clear d p.

(** [j] is [c] or lies below it. *)
Definition in_subtree (d : list SlTreeItem) (c j : nat) : Prop :=
  j = c \/ ancestor d c j.

(** What the selection walks never write: the parent link and the
    [disabled] flag of an item. *)
Definition skeleton (it : SlTreeItem) : option nat * bool :=
  (parentElement it, disabled it).

Definition same_skeleton (d d' : list SlTreeItem) : Prop :=
  List.map skeleton d' = List.map skeleton d.

(** *** Concrete trees *)

(** A collapsed item [0], its expanded child [1] and its grandchild [2]. *)
Definition collapsed_grandparent : SlTree :=
  mkTree single
    [ mkItem None false false false false false false false;
      mkItem (Some 0) false false false true false false false;
      mkItem (Some 1) false false false false false false false ].

(** An item [0] with the child [1], itself the parent of [2] (selected) and
    [3] (not selected); item [1] is indeterminate. *)
Definition half_selected_branch : SlTree :=
  mkTree multiple
    [ mkItem None false true false true false false true;
      mkItem (Some 0) false true false true false false true;
      mkItem (Some 1) true false false false false false true;
      mkItem (Some 1) false false false false false false true ].

(** An item [0] (indeterminate) with the children [1] (selected) and [2]
    (not selected). *)
Definition mixed_pair : SlTree :=
  mkTree multiple
    [ mkItem None false true false true false false true;
      mkItem (Some 0) true false false false false false true;
      mkItem (Some 0) false false false false false false true ].

(** A top-level item [0] next to an item [1] that is not selected although
    its only child [2] is. *)
Definition stale_sibling : SlTree :=
  mkTree multiple
    [ mkItem None false false false false false false true;
      mkItem None false false false true false false true;
      mkItem (Some 1) true false false false false false true ].

(** A root [0], indeterminate, with two indeterminate branches: [1] with
    the children [2] (selected) and [3] (not selected), and [4] with the
    children [5] (selected) and [6] (not selected). *)
Definition two_branches : SlTree :=
  mkTree multiple
    [ mkItem None false true false true false false true;
      mkItem (Some 0) false true false true false false true;
      mkItem (Some 1) true false false false false false true;
      mkItem (Some 1) false false false false false false true;
      mkItem (Some 0) false true false true false false true;
      mkItem (Some 4) true false false false false false true;
      mkItem (Some 4) false false false false false false true ].

(** *** Clicks *)

(** [handleClick(event)], for a click inside the tree item [treeItem]
    ([event.target.closest('sl-tree-item')]); the second component is the
    [selection] of the [sl-selection-change] event, if one was emitted. *)
Definition handleClick (treeItem : nat) (t : SlTree)
  : option (SlTree * option (list nat)) :=
  if negb (prop disabled treeItem (treeItems t))
  then
    match selectItem treeItem t with
    | Some (t', sel) => Some (t', Some sel)
    | None => None
    end
  else Some (t, None).

(** *** Keyboard navigation *)

(** Modelled from the spec: [clamp] of [src/internal/math], which is not
    part of the sources at hand; focus "clamps at ends (no wraparound)". *)
Definition clamp (value lo hi : Z) : Z :=
  if (value <? lo)%Z then lo
  else if (hi <? value)%Z then hi
  else value.

(** [items.findIndex(p)]: the first position that passes the test, or
    [-1]. *)
Fixpoint findIndex (p : nat -> bool) (items : list nat) : Z :=
  match items with
  | [] => (-1)%Z
  | x :: items' =>
      if p x then 0%Z
      else
        let k := findIndex p items' in
        if (k <? 0)%Z then (-1)%Z else (k + 1)%Z
  end.

(** [items[index]], [undefined] out of range. *)
Definition item_at (items : list nat) (index : Z) : option nat :=
  if (index <? 0)%Z then None else nth_error items (Z.to_nat index).

(** What a key press does: nothing at all; or the default action is
    prevented, leaving a tree, the item that received [focus()] if any, and
    the [selection] of an [sl-selection-change] event if any; or a
    [TypeError] is thrown by reading a property of [undefined]. *)
Inductive KeyResult : Type :=
  | key_ignored
  | key_handled (t : SlTree) (focused : option nat) (change : option (list nat))
  | key_TypeError.

(** [focusItemAt(index)] *)
Definition focusItemAt (items : list nat) (index : Z) : option nat :=
  item_at items (clamp index 0 (Z.of_nat (List.length items) - 1)).

(** [handleKeyDown(event)] for [event.key = key], with [dir] the value of
    [localize.dir()] and [activeElement] the tree item that is
    [document.activeElement], if it is one. *)
Definition handleKeyDown (key dir : string) (activeElement : option nat)
    (t : SlTree) : option KeyResult :=
  if negb (List.existsb (String.eqb key)
             ["ArrowDown"; "ArrowUp"; "ArrowRight"; "ArrowLeft";
              "Home"; "End"; "Enter"; " "]%string)
  then Some key_ignored
  else
    let items := getFocusableItems t in
    let isLtr := String.eqb dir "ltr" in
    let isRtl := String.eqb dir "rtl" in
    if (0 <? List.length items)%nat then
      let activeItemIndex :=
        findIndex
          (fun item =>
             match activeElement with
             | Some a => Nat.eqb a item
             | None => false
             end)
          items in
      let activeItem := item_at items activeItemIndex in
      let toggleExpand (expanded : bool) (a : nat) :=
        with_items t (alter (set_expanded expanded) a (treeItems t)) in
      if String.eqb key "ArrowDown" then
        Some (key_handled t (focusItemAt items (activeItemIndex + 1)) None)
      else if String.eqb key "ArrowUp" then
        Some (key_handled t (focusItemAt items (activeItemIndex - 1)) None)
      else if (isLtr && String.eqb key "ArrowRight")
              || (isRtl && String.eqb key "ArrowLeft") then
        match activeItem with
        | None =>
            Some (key_handled t (focusItemAt items (activeItemIndex + 1)) None)
        | Some a =>
            if prop expanded a (treeItems t)
               || (isLeaf a (treeItems t) && negb (prop lazy a (treeItems t)))
            then Some (key_handled t (focusItemAt items (activeItemIndex + 1)) None)
            else Some (key_handled (toggleExpand true a) None None)
        end
      else if (isLtr && String.eqb key "ArrowLeft")
              || (isRtl && String.eqb key "ArrowRight") then
        match activeItem with
        | None =>
            Some (key_handled t (focusItemAt items (activeItemIndex - 1)) None)
        | Some a =>
            if isLeaf a (treeItems t) || negb (prop expanded a (treeItems t))
            then Some (key_handled t (focusItemAt items (activeItemIndex - 1)) None)
            else Some (key_handled (toggleExpand false a) None None)
        end
      else if String.eqb key "Home" then
        Some (key_handled t (focusItemAt items 0) None)
      else if String.eqb key "End" then
        Some (key_handled t
                (focusItemAt items (Z.of_nat (List.length items) - 1)) None)
      else if String.eqb key "Enter" || String.eqb key " " then
        match activeItem with
        | None => Some key_TypeError
        | Some a =>
            match selectItem a t with
            | Some (t', sel) => Some (key_handled t' None (Some sel))
            | None => None
            end
        end
      else Some (key_handled t None None)
    else Some key_ignored.

(** *** Roving tabindex *)

(** The [tabIndex] of the tree and of each item, and [lastFocusedItem]. *)
Record Roving : Type := mkRoving {
  tree_tabIndex : Z;
  item_tabIndex : list Z;
  lastFocusedItem : option nat
}.

(** Where a focus event comes from: the tree itself, one of its items, or
    another element inside it. *)
Inductive FocusTarget : Type :=
  | target_tree
  | target_item (i : nat)
  | target_other.

(** The second half of [handleFocusIn], for an event whose target is the
    tree item [target]. *)
Definition focusInItem (target : nat) (t : SlTree) (r : Roving) : Roving :=
  if negb (prop disabled target (treeItems t)) then
    let tabs :=
      match lastFocusedItem r with
      | Some last => <[last := (-1)%Z]> (item_tabIndex r)
      | None => item_tabIndex r
      end in
    mkRoving (-1)%Z (<[target := 0%Z]> tabs) (Some target)
  else r.

(** [handleFocusIn(event)].  When the tree itself is focused, the focus is
    moved on with [focus()], which raises the event again on the item. *)
Definition handleFocusIn (target : FocusTarget) (t : SlTree) (r : Roving)
  : Roving :=
  match target with
  | target_tree =>
      let item :=
        match lastFocusedItem r with
        | Some last => Some last
        | None =>
            match treeItems t with
            | [] => None
            | _ :: _ => Some 0
            end
        end in
      match item with
      | Some i => focusInItem i t r
      | None => r
      end
  | target_item i => focusInItem i t r
  | target_other => r
  end.

(** [handleFocusOut(event)]; [outside] says that [event.relatedTarget] is
    missing or lies outside the tree. *)
Definition handleFocusOut (outside : bool) (r : Roving) : Roving :=
  if outside
  then mkRoving 0%Z (item_tabIndex r) (lastFocusedItem r)
  else r.

(** [focusItem(item)] followed by the focus event it raises. *)
Definition focusItem (item : option nat) (t : SlTree) (r : Roving) : Roving :=
  match item with
  | Some i => handleFocusIn (target_item i) t r
  | None => r
  end.

(** *** Further notions used to state the properties *)

(** Every flag of an item except [selected] and [indeterminate]. *)
Definition unchecked (it : SlTreeItem) : SlTreeItem :=
  set_selected false (set_indeterminate false it).

(** [enabled_below d i j]: [j] lies below [i], and neither [j] nor any item
    between [j] and [i] is disabled. *)
Inductive enabled_below (d : list SlTreeItem) (i : nat) : nat -> Prop :=
  | enabled_child (j : nat) :
      parentItemOf j d = Some i ->
      prop disabled j d = false ->
      enabled_below d i j
  | enabled_further (j p : nat) :
      parentItemOf j d = Some p ->
      enabled_below d i p ->
      prop disabled j d = false ->
      enabled_below d i j.

(** The only item that sequential keyboard navigation can reach is the last
    focused one. *)
Definition roving_ok (r : Roving) : Prop :=
  forall j : nat,
    item_tabIndex r !! j = Some 0%Z -> lastFocusedItem r = Some j.

End Tree.

(** ** Pointer drag *)

Module Drag.

Local Open Scope Q_scope.

(** The two listeners defined inside [drag]. *)
Inductive Listener : Type := move_listener | stop_listener.

(** What a call does to the outside world, in order. *)
Inductive Effect : Type :=
  | addEventListener (type : string) (l : Listener)
  | removeEventListener (type : string) (l : Listener)
  | onMove (x y : Q).

(** The container's bounding rectangle and the scroll offsets of its
    window. *)
Record Container : Type := mkContainer {
  dims_left : Q;
  dims_top : Q;
  pageXOffset : Q;
  pageYOffset : Q
}.

Record PointerEvent : Type := mkPointer {
  pageX : Q;
  pageY : Q
}.

(** [move(pointerEvent)] *)
Definition move (container : Container) (pointerEvent : PointerEvent)
  : list Effect :=
  let offsetX := dims_left container + pageXOffset container in
  let offsetY := dims_top container + pageYOffset container in
  let x := pageX pointerEvent - offsetX in
  let y := pageY pointerEvent - offsetY in
  [onMove x y].

(** [stop()] *)
Definition stop : list Effect :=
  [removeEventListener "pointermove" move_listener;
   removeEventListener "pointerup" stop_listener].

(** [drag(container, onMove, options)]; [initialEvent] is
    [options?.initialEvent]. *)
Definition drag (container : Container) (initialEvent : option PointerEvent)
  : list Effect :=
  [addEventListener "pointermove" move_listener;
   addEventListener "pointerup" stop_listener]
  ++ match initialEvent with
     | Some ev => move container ev
     | None => []
     end.

(** An [onMove] report occurs in the trace before any listener is
    attached. *)
Fixpoint reports_before_attaching (trace : list Effect) : bool :=
  match trace with
  | [] => false
  | onMove _ _ :: _ => true
  | addEventListener _ _ :: _ => false
  | removeEventListener _ _ :: trace' => reports_before_attaching trace'
  end.

(** A container at [(10, 20)] on an unscrolled page and a pointer-down at
    [(15, 40)]. *)
Definition container_10_20 : Container := mkContainer 10 20 0 0.
Definition pointer_15_40 : PointerEvent := mkPointer 15 40.

(** *** The document's listeners *)

(** The listeners registered on [document], in order of registration, and
    the positions reported through [onMove] so far. *)
Record Session : Type := mkSession {
  registry : list (string * Listener);
  reports : list (Q * Q)
}.

Definition Listener_eqb (a b : Listener) : bool :=
  match a, b with
  | move_listener, move_listener | stop_listener, stop_listener => true
  | _, _ => false
  end.

Definition same_entry (type : string) (l : Listener)
    (entry : string * Listener) : bool :=
  String.eqb (fst entry) type && Listener_eqb (snd entry) l.

(** One effect on the session: [addEventListener] registers a listener
    unless it is registered already, [removeEventListener] drops it, and
    [onMove] records a position. *)
Definition perform (e : Effect) (st : Session) : Session :=
  match e with
  | addEventListener type l =>
      if List.existsb (same_entry type l) (registry st) then st
      else mkSession (registry st ++ [(type, l)]) (reports st)
  | removeEventListener type l =>
      mkSession (List.filter (fun entry => negb (same_entry type l entry))
                             (registry st))
                (reports st)
  | onMove x y => mkSession (registry st) (reports st ++ [(x, y)])
  end.

Definition run (effects : list Effect) (st : Session) : Session :=
  List.fold_left (fun st e => perform e st) effects st.

(** What the listeners registered for [type] do when such an event is
    dispatched. *)
Definition dispatch (container : Container) (type : string)
    (ev : PointerEvent) (st : Session) : Session :=
  run
    (List.flat_map
       (fun entry : string * Listener =>
          if String.eqb (fst entry) type then
            match snd entry with
            | move_listener => move container ev
            | stop_listener => stop
            end
          else [])
       (registry st))
    st.

(** The position [move] reports for an event. *)
Definition position (container : Container) (ev : PointerEvent) : Q * Q :=
  (pageX ev - (dims_left container + pageXOffset container),
   pageY ev - (dims_top container + pageYOffset container)).

End Drag.

(** * Properties *)

(** ** Multi-range slider *)

Module MultiRangeFacts.
Import MultiRange.

(** Boolean comparisons on [Q] turned into propositions. *)
Lemma Qle_bool_false (a b : Q) : Qle_bool a b = false -> b < a.
Proof.
  intros H. apply Qnot_le_lt. intros Hle.
  apply Qle_bool_iff in Hle. congruence.
Qed.

Lemma Qeq_bool_false (a b : Q) : Qeq_bool a b = false -> ~ a == b.
Proof. intros H Heq. apply Qeq_bool_iff in Heq. congruence. Qed.

Ltac qprop :=
  repeat match goal with
  | H : Qle_bool _ _ = true |- _ => apply Qle_bool_iff in H
  | H : Qle_bool _ _ = false |- _ => apply Qle_bool_false in H
  | H : Qeq_bool _ _ = true |- _ => apply Qeq_bool_iff in H
  | H : Qeq_bool _ _ = false |- _ => apply Qeq_bool_false in H
  end.

Ltac fields :=
  cbn beta iota delta
    [min max step value disabled sliderValues nextId activeTrack
     set_range set_value set_sliderValues set_activeTrack negb fst snd].

Ltac no_test t :=
  lazymatch t with
  | context [Qle_bool _ _] => fail
  | context [Qeq_bool _ _] => fail
  | _ => idtac
  end.

Ltac qcase :=
  match goal with
  | |- context [Qle_bool ?a ?b] =>
      no_test a; no_test b;
      let E := fresh "E" in destruct (Qle_bool a b) eqn:E; fields
  | |- context [Qeq_bool ?a ?b] =>
      no_test a; no_test b;
      let E := fresh "E" in destruct (Qeq_bool a b) eqn:E; fields
  end.

(** *** The corrected range *)

(** C4 (amended).  Correcting an already corrected range changes nothing,
    for every range whose step is positive, or whose bounds coincide, or
    whose bounds are at least one apart.  The ranges left out are those with
    a non-positive step and bounds less than one apart. *)
Theorem correctRange_idempotent (s : SlMultiRange) :
  0 < step s \/ min s == max s \/ 1 <= Qabs (max s - min s) ->
  correctRange (correctRange s) = correctRange s.
Proof.
  intros H.
  assert (H' : 0 < step s \/ min s == max s
               \/ 1 <= max s - min s \/ 1 <= min s - max s).
  { destruct H as [H | [H | H]]; [tauto | tauto |].
    revert H. apply Qabs_case; intros; right; right; [left | right]; lra. }
  clear H. destruct s as [dis mn mx st v m n tr].
  cbn [step min max] in H'.
  unfold correctRange, Qgt_bool; fields.
  repeat qcase; qprop; try reflexivity; exfalso; lra.
Qed.

(** The theorem at [min = 10], [max = 0], [step = -1]. *)
Lemma correctRange_idempotent_witness :
  let s := mkRange false 10 0 (-1) [2] [] 1 None in
  correctRange (correctRange s) = correctRange s.
Proof.
  apply correctRange_idempotent. simpl. right. right.
  unfold Qabs, Qle; simpl. lia.
Defined.

(** C4 (counterexample).  On [min = 0], [max = 1/2], [step = 0] the first
    correction sets the step to [1] and the second one to [1/2]. *)
Lemma correctRange_not_idempotent :
  step (correctRange half_unit_range) == 1 /\
  step (correctRange (correctRange half_unit_range)) == 1 # 2 /\
  ~ step (correctRange (correctRange half_unit_range))
    == step (correctRange half_unit_range).
Proof.
  repeat split; try reflexivity.
  vm_compute. discriminate.
Qed.

(** *** Normalisation of a value *)



(** *** The pass in floating-point arithmetic *)



Lemma willUpdate_fl_exact (c : bool) (s : SlMultiRange) :
  willUpdate_fl (fun x => x) c s = willUpdate c s.
Proof. reflexivity. Qed.










(** *** Rounding to the nearest double *)

Lemma pow2_pos (e : Z) : 0 < pow2 e.
Proof. apply Qpower_0_lt. reflexivity. Qed.


Lemma pow2_plus (a b : Z) : pow2 (a + b) == pow2 a * pow2 b.
Proof. apply Qpower_plus. discriminate. Qed.

Lemma pow2_succ (a : Z) : pow2 (a + 1) == 2 * pow2 a.
Proof. rewrite pow2_plus. change (pow2 1) with 2. ring. Qed.




Lemma round_half_even_cases (y : Q) :
  let f := Qfloor y in
  let r := y - inject_Z f in
  (0 <= r /\ r < 1) /\
  (round_half_even y = f /\ r <= 1 # 2 \/
   round_half_even y = (f + 1)%Z /\ 1 # 2 <= r) /\
  (r < 1 # 2 -> round_half_even y = f) /\
  (1 # 2 < r -> round_half_even y = (f + 1)%Z) /\
  (r == 1 # 2 -> round_half_even y = if Z.even f then f else (f + 1)%Z).
Proof.
  cbv zeta. unfold round_half_even.
  pose proof (Qfloor_le y) as H1. pose proof (Qlt_floor y) as H2.
  rewrite inject_Z_plus in H2. change (inject_Z 1) with 1 in H2.
  split; [lra |].
  destruct (Qcompare (y - inject_Z (Qfloor y)) (1 # 2)) eqn:E.
  - apply Qeq_alt in E. repeat split; try lra; try reflexivity.
    destruct (Z.even (Qfloor y)); [left | right]; split; try reflexivity; lra.
  - apply Qlt_alt in E. repeat split; try lra; try reflexivity.
    left. split; [reflexivity | lra].
  - apply Qgt_alt in E. repeat split; try lra; try reflexivity.
    right. split; [reflexivity | lra].
Qed.



(** The rounding of a positive number, and what brackets it. *)
Lemma binary64_pos (x : Q) :
  0 < x ->
  binary64 x == inject_Z (round_half_even (x / pow2 (exponent x - 52)))
                * pow2 (exponent x - 52).
Proof.
  intros Hx. unfold binary64. destruct x as [[| p | p] d]; cbn [Qnum].
  - exfalso. revert Hx. unfold Qlt. simpl. lia.
  - cbv zeta. apply Qred_correct.
  - exfalso. revert Hx. unfold Qlt. simpl. lia.
Qed.







(** The result lies within half a unit in the last place of the exact
    number: no double is nearer. *)
Lemma binary64_error (x : Q) :
  0 < x -> Qabs (binary64 x - x) <= pow2 (exponent x - 53).
Proof.
  intros Hx. rewrite (binary64_pos x Hx).
  set (e := (exponent x - 52)%Z).
  pose proof (pow2_pos e) as He.
  assert (Hh : pow2 e == 2 * pow2 (exponent x - 53)).
  { rewrite <- pow2_succ. subst e.
    replace (exponent x - 53 + 1)%Z with (exponent x - 52)%Z by lia. reflexivity. }
  assert (Hs : x == (x / pow2 e) * pow2 e) by (field; lra).
  destruct (round_half_even_cases (x / pow2 e)) as (Hr & Hc & _).
  set (y := x / pow2 e) in *.
  set (P := pow2 e) in *. set (H := pow2 (exponent x - 53)) in *.
  assert (Hd : - (1 # 2) <= inject_Z (round_half_even y) - y
               /\ inject_Z (round_half_even y) - y <= 1 # 2).
  { destruct Hc as [[-> Hle] | [-> Hge]].
    - lra.
    - rewrite inject_Z_plus. change (inject_Z 1) with 1. lra. }
  set (k := inject_Z (round_half_even y)) in *.
  assert (E : k * P - x == (k - y) * P) by (rewrite Hs at 1; ring).
  rewrite E. apply Qabs_Qle_condition. clearbody k y P H. split; nra.
Qed.




(** *** Ordering of the stored values *)

Lemma Sorted_weaken {A : Type} (R R' : A -> A -> Prop) (l : list A) :
  (forall x y, R x y -> R' x y) -> Sorted R l -> Sorted R' l.
Proof.
  intros HR. induction 1 as [| x l Hs IH Hhd]; constructor; auto.
  destruct Hhd; constructor; auto.
Qed.

Lemma sort_sorted (l : list Q) : Sorted Qle (sort l).
Proof.
  unfold sort.
  apply Sorted_weaken with (R := fun x y => is_true (NumericOrder.leb x y)).
  - intros x y H. unfold NumericOrder.leb, numericSort, is_true in H.
    apply Qle_bool_iff in H. lra.
  - apply NumericSort.Sorted_sort.
Qed.






(** *** Geometry of the active track *)

Lemma trackGeometry_fl_exact (s : SlMultiRange) :
  trackGeometry_fl (fun x => x) s = trackGeometry s.
Proof. reflexivity. Qed.

(** C6 (amended).  Whatever the rounding of the arithmetic, for every range
    and every value sequence the track is hidden exactly when there are
    fewer than two values or [min == max], and then has zero offset and
    zero width; otherwise it is shown, its offset is
    [100 * (first - min) / (max - min)] and its width is
    [100 * (last - first) / (max - min)] as the code evaluates them, for
    the first and the last value of the sequence.  Nothing is said of the
    sum of the two. *)
Theorem trackGeometry_spec (fl : Q -> Q) (s : SlMultiRange) :
  let t := trackGeometry_fl fl s in
  let first := List.nth 0 (value s) 0 in
  let last := List.last (value s) 0 in
  (track_display t = display_none
   <-> (List.length (value s) < 2)%nat \/ min s == max s) /\
  (track_display t = display_none ->
   track_left t = 0 /\ track_width t = 0) /\
  (track_display t <> display_none ->
   track_display t = display_inline_block /\
   track_left t = fl (fl (100 * fl (first - min s)) / fl (max s - min s)) /\
   track_width t = fl (fl (100 * fl (last - first)) / fl (max s - min s))).
Proof.
  cbv zeta. unfold trackGeometry_fl.
  destruct (Qeq_bool (min s) (max s)) eqn:Eq; cbn [orb].
  - apply Qeq_bool_iff in Eq. cbn [track_display track_left track_width].
    repeat split; try reflexivity; try tauto; congruence.
  - apply Qeq_bool_false in Eq.
    destruct (Nat.ltb (List.length (value s)) 2) eqn:El;
      cbn [track_display track_left track_width].
    + apply Nat.ltb_lt in El.
      repeat split; try reflexivity; try tauto; congruence.
    + apply Nat.ltb_ge in El.
      split; [| split].
      * split; [discriminate |]. intros [Hl | He]; [lia | contradiction].
      * discriminate.
      * intros _. repeat split.
Qed.

(** The theorem for rounding to the nearest double, on [decade_range]. *)
Lemma trackGeometry_spec_witness :
  let t := trackGeometry_fl binary64 decade_range in
  track_display t = display_inline_block /\
  track_left t
  = binary64 (binary64 (100 * binary64 ((1914029841632461 # 1125899906842624) - 1))
              / binary64 (11 - 1)) /\
  track_width t
  = binary64 (binary64 (100 * binary64 (11 - (1914029841632461 # 1125899906842624)))
              / binary64 (11 - 1)).
Proof.
  destruct (trackGeometry_spec binary64 decade_range) as (_ & _ & H).
  apply H. vm_compute. discriminate.
Defined.

(** C6 (counterexample).  With [min = 0], [max = 8] and the values
    [[0; 9]] the track starts at [0] and is [112.5] wide.  And offset and
    width can add up to more than [100] for values within the bounds: with
    rounding to the nearest double, on [min = 1], [max = 11], [step = 0.1]
    the values [1.7000000000000002] and [11] are what a normalisation pass
    leaves, and the track gets the offset [7.000000000000002] and the width
    [93.00000000000001]. *)
Lemma trackGeometry_exceeds_100 :
  (let t := trackGeometry overshot_range in
   track_left t == 0 /\ track_width t == 225 # 2 /\
   ~ track_left t + track_width t <= 100) /\
  (let t := trackGeometry_fl binary64 decade_range in
   willUpdate_fl binary64 false decade_range = (decade_range, []) /\
   Forall (in_range decade_range) (value decade_range) /\
   track_left t == 3940649673949185 # 562949953421312 /\
   track_width t == 6544293208522753 # 70368744177664 /\
   ~ track_left t + track_width t <= 100).
Proof.
  split.
  - cbv zeta. repeat split. vm_compute. intros H. apply H. reflexivity.
  - cbv zeta. split; [vm_compute; reflexivity |]. split.
    + repeat constructor; vm_compute; discriminate.
    + split; [vm_compute; reflexivity |]. split; [vm_compute; reflexivity |].
      vm_compute. intros H. apply H. reflexivity.
Qed.

(** *** Dragging past the maximum *)

(** C2 (the code at the failing input).  On [min = 0], [max = 8],
    [step = 3], a move of the captured pointer beyond the right end of the
    track gives the fraction [1]; the handle's slot and the stored values
    then hold [9], above [max], and the active track is [112.5] percent
    wide.  The normalisation pass clamps the same snapped value to [max]. *)
Theorem onDragHandle_overshoots_max :
  let s' := fst (onDragHandle eighths_range drag_right) in
  correctRange eighths_range = eighths_range /\
  getNormalizedValueFromClientX drag_right = 1 /\
  map_get 2 (sliderValues s') = Some 9 /\
  value s' = [0; 9] /\
  max s' = 8 /\
  track_width (trackGeometry s') == 225 # 2 /\
  snd (onDragHandle eighths_range drag_right) = [sl_input] /\
  adjust eighths_range (31 # 4) = 8.
Proof.
  cbv zeta. repeat split; vm_compute; reflexivity.
Qed.

End MultiRangeFacts.

(** ** Tree selection *)

Module TreeFacts.
Import Tree.

Local Close Scope Q_scope.
Local Open Scope nat_scope.

(** Filtering the positions [0 .. n-1] by a test that singles out [i]. *)
Lemma filter_seq_single (f : nat -> bool) (i a n : nat) :
  (forall j, a <= j < a + n -> f j = Nat.eqb j i) ->
  List.filter f (List.seq a n) = if (a <=? i) && (i <? a + n) then [i] else [].
Proof.
  revert a. induction n as [| n IH]; intros a Hf.
  - simpl. destruct (a <=? i) eqn:E1; destruct (i <? a + 0) eqn:E2; try reflexivity.
    apply Nat.leb_le in E1. apply Nat.ltb_lt in E2. lia.
  - simpl. rewrite Hf by lia. rewrite IH by (intros j Hj; apply Hf; lia).
    destruct (Nat.eqb a i) eqn:E.
    + apply Nat.eqb_eq in E. subst a.
      replace (S i <=? i) with false by (symmetry; apply Nat.leb_gt; lia).
      replace (i <=? i) with true by (symmetry; apply Nat.leb_le; lia).
      replace (i <? i + S n) with true by (symmetry; apply Nat.ltb_lt; lia).
      reflexivity.
    + apply Nat.eqb_neq in E.
      destruct (S a <=? i) eqn:E1; destruct (a <=? i) eqn:E2;
        destruct (i <? S a + n) eqn:E3; destruct (i <? a + S n) eqn:E4;
        try reflexivity;
        repeat match goal with
        | H : (_ <=? _) = true |- _ => apply Nat.leb_le in H
        | H : (_ <=? _) = false |- _ => apply Nat.leb_gt in H
        | H : (_ <? _) = true |- _ => apply Nat.ltb_lt in H
        | H : (_ <? _) = false |- _ => apply Nat.ltb_ge in H
        end; lia.
Qed.

(** *** Single selection *)

(** C7.  In single selection mode, after [selectItem] on an item of the
    tree that item is selected, every other item is deselected, and the
    selected items are exactly that one item. *)
Theorem selectItem_single (t : SlTree) (i : nat) :
  selection t = single ->
  i < length (treeItems t) ->
  exists t' : SlTree,
    selectItem i t = Some (t', [i]) /\
    length (treeItems t') = length (treeItems t) /\
    prop selected i (treeItems t') = true /\
    (forall j, j <> i -> prop selected j (treeItems t') = false) /\
    selectedItems t' = [i] /\
    length (selectedItems t') = 1.
Proof.
  intros Hsel Hi. destruct t as [sel d]. simpl in Hsel, Hi. subst sel.
  set (d' := imap (fun j it => if negb (Nat.eqb j i) then set_selected false it else it)
                  (alter (set_selected true) i d)).
  assert (Hlen : length d' = length d).
  { subst d'. rewrite length_imap, length_alter. reflexivity. }
  assert (Hprop : forall j, j < length d -> prop selected j d' = Nat.eqb j i).
  { intros j Hj. subst d'. unfold prop. rewrite list_lookup_imap.
    destruct (Nat.eqb j i) eqn:E.
    - apply Nat.eqb_eq in E. subst j. rewrite list_lookup_alter_eq.
      destruct (lookup_lt_is_Some_2 d i Hi) as [it Hit]. rewrite Hit. reflexivity.
    - apply Nat.eqb_neq in E. rewrite list_lookup_alter_ne by auto.
      destruct (d !! j); reflexivity. }
  assert (Hitems : selectedItems (mkTree single d') = [i]).
  { unfold selectedItems. cbn [treeItems]. rewrite Hlen.
    rewrite (filter_seq_single _ i 0 (length d)).
    - replace (0 <=? i) with true by (symmetry; apply Nat.leb_le; lia).
      replace (i <? 0 + length d) with true by (symmetry; apply Nat.ltb_lt; lia).
      reflexivity.
    - intros j Hj. apply Hprop. lia. }
  exists (mkTree single d'). repeat split.
  - unfold selectItem, syncTreeItems, with_items. cbn [selection treeItems Selection_eqb orb].
    fold d'. rewrite Hitems. reflexivity.
  - exact Hlen.
  - cbn [treeItems]. rewrite Hprop by exact Hi. apply Nat.eqb_refl.
  - intros j Hne. cbn [treeItems].
    destruct (Nat.lt_ge_cases j (length d)) as [Hj | Hj].
    + rewrite Hprop by exact Hj. apply Nat.eqb_neq. exact Hne.
    + unfold prop. rewrite lookup_ge_None_2; [reflexivity | lia].
  - exact Hitems.
  - rewrite Hitems. reflexivity.
Qed.

(** The theorem at item [1] of [collapsed_grandparent]. *)
Lemma selectItem_single_witness :
  exists t' : SlTree,
    selectItem 1 collapsed_grandparent = Some (t', [1]) /\
    selectedItems t' = [1].
Proof.
  destruct (selectItem_single collapsed_grandparent 1) as (t' & Hrun & _ & _ & _ & Hsel & _).
  - reflexivity.
  - simpl. lia.
  - exists t'. split; [exact Hrun | exact Hsel].
Defined.

(** *** Focusable items *)

(** C8 (the code at the failing input).  In [collapsed_grandparent] item
    [2] lies inside the collapsed item [0], below the expanded item [1].
    Only the parent of an item is looked at, so that item [2], which is not
    disabled, is kept among the focusable items; with the focus on item
    [0], [ArrowDown] and [End] then call [focus()] on item [2]. *)
Theorem getFocusableItems_keeps_hidden_grandchild :
  let d := treeItems collapsed_grandparent in
  (parentItemOf 2 d = Some 1 /\ parentItemOf 1 d = Some 0 /\ ancestor d 0 2) /\
  (prop expanded 0 d = false /\ prop expanded 1 d = true
   /\ prop loading 1 d = false /\ prop disabled 2 d = false) /\
  getFocusableItems collapsed_grandparent = [0; 2] /\
  In 2 (getFocusableItems collapsed_grandparent) /\
  handleKeyDown "ArrowDown" "ltr" (Some 0) collapsed_grandparent
  = Some (key_handled collapsed_grandparent (Some 2) None) /\
  handleKeyDown "End" "ltr" (Some 0) collapsed_grandparent
  = Some (key_handled collapsed_grandparent (Some 2) None).
Proof.
  cbv zeta. split; [| split; [| split; [| split; [| split]]]].
  - repeat split.
    apply ancestor_above with (p := 1); [reflexivity |].
    apply ancestor_parent. reflexivity.
  - repeat split.
  - reflexivity.
  - right. left. reflexivity.
  - vm_compute. reflexivity.
  - vm_compute. reflexivity.
Qed.

(** *** What [syncDescendants] writes *)

Lemma for_of_preserves {A S : Type} (P : S -> Prop)
    (body : A -> S -> option S) (xs : list A) :
  (forall x s s', P s -> body x s = Some s' -> P s') ->
  forall s s', P s -> for_of body xs s = Some s' -> P s'.
Proof.
  intros Hbody. induction xs as [| x xs IH]; intros s s' Hs Hrun; simpl in Hrun.
  - inversion Hrun; subst; exact Hs.
  - destruct (body x s) as [s1 |] eqn:E; [| discriminate].
    eapply IH; [| exact Hrun]. eapply Hbody; eauto.
Qed.

Lemma map_alter_erased {B : Type} (e : SlTreeItem -> B)
    (f : SlTreeItem -> SlTreeItem) (i : nat) (d : list SlTreeItem) :
  (forall it, e (f it) = e it) ->
  List.map e (alter f i d) = List.map e d.
Proof.
  intros Hef. apply list_eq. intros j.
  change (List.map e) with (fmap (M := list) e). rewrite !list_lookup_fmap.
  destruct (decide (i = j)) as [-> | Hne].
  - rewrite list_lookup_alter_eq. destruct (d !! j); simpl; [rewrite Hef |]; reflexivity.
  - rewrite list_lookup_alter_ne by exact Hne. reflexivity.
Qed.

Lemma syncDescendants_writes_selected_only (fuel i : nat) (d d' : list SlTreeItem) :
  syncDescendants fuel i d = Some d' ->
  List.map (set_selected false) d' = List.map (set_selected false) d.
Proof.
  revert i d d'. induction fuel as [| fuel IH]; intros i d d' Hrun; [discriminate |].
  simpl in Hrun.
  eapply (for_of_preserves
            (fun s => List.map (set_selected false) s = List.map (set_selected false) d));
    [| reflexivity | exact Hrun].
  intros c s s' Hs Hbody. apply IH in Hbody. rewrite Hbody, <- Hs.
  apply map_alter_erased. intros it. reflexivity.
Qed.

(** *** Document order *)

Lemma document_orderb_spec (d : list SlTreeItem) :
  document_orderb d = true -> document_order d.
Proof.
  unfold document_orderb. rewrite List.forallb_forall.
  intros H i p Hp. specialize (H i).
  rewrite Hp in H. apply Nat.ltb_lt. apply H.
  apply in_seq. unfold parentItemOf in Hp.
  destruct (d !! i) eqn:E; [| discriminate].
  apply lookup_lt_Some in E. lia.
Qed.

(** *** The shape of the tree *)

Lemma same_skeleton_refl d : same_skeleton d d.
Proof. reflexivity. Qed.

Lemma same_skeleton_trans d1 d2 d3 :
  same_skeleton d1 d2 -> same_skeleton d2 d3 -> same_skeleton d1 d3.
Proof. unfold same_skeleton. congruence. Qed.

Lemma same_skeleton_length d d' : same_skeleton d d' -> length d' = length d.
Proof.
  intros H. apply (f_equal (@length _)) in H.
  rewrite !List.length_map in H. exact H.
Qed.

Lemma same_skeleton_lookup d d' j :
  same_skeleton d d' -> skeleton <$> d' !! j = skeleton <$> d !! j.
Proof.
  intros H. rewrite <- !list_lookup_fmap.
  change (fmap (M := list) skeleton) with (List.map skeleton). rewrite H.
  reflexivity.
Qed.

Lemma same_skeleton_parent d d' j :
  same_skeleton d d' -> parentItemOf j d' = parentItemOf j d.
Proof.
  intros H. apply (same_skeleton_lookup _ _ j) in H. unfold parentItemOf.
  destruct (d' !! j), (d !! j); simpl in H; try congruence.
  unfold skeleton in H. congruence.
Qed.

Lemma same_skeleton_disabled d d' j :
  same_skeleton d d' -> prop disabled j d' = prop disabled j d.
Proof.
  intros H. apply (same_skeleton_lookup _ _ j) in H. unfold prop.
  destruct (d' !! j), (d !! j); simpl in H; try congruence.
  unfold skeleton in H. congruence.
Qed.

Lemma same_skeleton_children d d' b i :
  same_skeleton d d' -> getChildrenItems b i d' = getChildrenItems b i d.
Proof.
  intros H. unfold getChildrenItems.
  rewrite (same_skeleton_length _ _ H).
  apply List.filter_ext. intros j.
  apply (same_skeleton_lookup _ _ j) in H.
  destruct (d' !! j) as [x |], (d !! j) as [y |]; simpl in H; try congruence.
  inversion H as [[Hp Hd]]. rewrite Hp, Hd. reflexivity.
Qed.

Lemma same_skeleton_alter (f : SlTreeItem -> SlTreeItem) i d :
  (forall it, skeleton (f it) = skeleton it) -> same_skeleton d (alter f i d).
Proof. intros Hf. unfold same_skeleton. apply map_alter_erased. exact Hf. Qed.

Lemma same_skeleton_ancestor d d' a i :
  same_skeleton d d' -> ancestor d a i -> ancestor d' a i.
Proof.
  intros H. induction 1 as [i Hp | i p Hp _ IH].
  - apply ancestor_parent. rewrite (same_skeleton_parent _ _ _ H). exact Hp.
  - eapply ancestor_above; [| exact IH].
    rewrite (same_skeleton_parent _ _ _ H). exact Hp.
Qed.

Lemma same_skeleton_sym d d' : same_skeleton d d' -> same_skeleton d' d.
Proof. unfold same_skeleton. congruence. Qed.

Lemma same_skeleton_order d d' :
  same_skeleton d d' -> document_order d -> document_order d'.
Proof.
  intros H Hwf i p Hp. apply (Hwf i p).
  rewrite <- (same_skeleton_parent _ _ _ H). exact Hp.
Qed.

(** *** Children and ancestors *)

Lemma In_getChildrenItems b i d c :
  In c (getChildrenItems b i d) <->
  parentItemOf c d = Some i /\ (b = true \/ prop disabled c d = false).
Proof.
  unfold getChildrenItems, parentItemOf, prop.
  rewrite filter_In, in_seq. split.
  - intros [Hc Htest]. destruct (d !! c) as [it |]; [| discriminate].
    destruct (parentElement it) as [p |]; [| discriminate].
    apply andb_true_iff in Htest. destruct Htest as [Hp Hb].
    apply Nat.eqb_eq in Hp. subst p. split; [reflexivity |].
    apply orb_true_iff in Hb. destruct Hb as [Hb | Hb]; [left; exact Hb |].
    right. apply negb_true_iff. exact Hb.
  - intros [Hp Hb]. destruct (d !! c) as [it |] eqn:Hc; [| discriminate].
    split.
    + apply lookup_lt_Some in Hc. lia.
    + rewrite Hp, Nat.eqb_refl. simpl.
      destruct Hb as [-> | Hb]; [reflexivity |].
      rewrite Hb. apply orb_true_r.
Qed.

Lemma NoDup_getChildrenItems b i d : List.NoDup (getChildrenItems b i d).
Proof. unfold getChildrenItems. apply List.NoDup_filter, List.seq_NoDup. Qed.

Lemma parentItemOf_lt_length i p d : parentItemOf i d = Some p -> i < length d.
Proof.
  unfold parentItemOf. destruct (d !! i) eqn:E; [| discriminate].
  intros _. eapply lookup_lt_Some; eauto.
Qed.

Lemma ancestor_lt d a i : document_order d -> ancestor d a i -> a < i.
Proof.
  intros Hwf. induction 1 as [i Hp | i p Hp _ IH].
  - apply (Hwf _ _ Hp).
  - specialize (Hwf _ _ Hp). lia.
Qed.

Lemma ancestor_of_child d a i p :
  parentItemOf i d = Some p -> ancestor d a i -> a = p \/ ancestor d a p.
Proof.
  intros Hp Ha. inversion Ha as [i' Hp' | i' p' Hp' Ha']; subst.
  - left. congruence.
  - right. congruence.
Qed.

Lemma ancestor_trans d a b c : ancestor d a b -> ancestor d b c -> ancestor d a c.
Proof.
  intros Hab. induction 1 as [c Hp | c p Hp _ IH].
  - eapply ancestor_above; eauto.
  - eapply ancestor_above; eauto.
Qed.

Lemma ancestor_chain d a b j :
  ancestor d a j -> ancestor d b j -> a = b \/ ancestor d a b \/ ancestor d b a.
Proof.
  intros Ha. revert b. induction Ha as [j Hp | j p Hp Ha IH]; intros b Hb.
  - destruct (ancestor_of_child _ _ _ _ Hp Hb) as [-> | Hb']; auto.
  - destruct (ancestor_of_child _ _ _ _ Hp Hb) as [-> | Hb']; auto.
Qed.


(** *** Consistency of a parent with its children *)

Lemma prop_lookup_eq (f : SlTreeItem -> bool) (j : nat) (d d' : list SlTreeItem) :
  d' !! j = d !! j -> prop f j d' = prop f j d.
Proof. intros H. unfold prop. rewrite H. reflexivity. Qed.

Lemma consistent_transfer d d' p :
  same_skeleton d d' ->
  d' !! p = d !! p ->
  (forall c, parentItemOf c d = Some p -> d' !! c = d !! c) ->
  consistent_selected d p /\ consistent_indeterminate d p ->
  consistent_selected d' p /\ consistent_indeterminate d' p.
Proof.
  intros Hsk Hp Hch.
  assert (Hall : all_selected d' p <-> all_selected d p).
  { unfold all_selected. rewrite (same_skeleton_children _ _ _ _ Hsk).
    split; intros H c Hc; specialize (H c Hc);
      apply In_getChildrenItems in Hc; destruct Hc as [Hc _];
      [rewrite <- (prop_lookup_eq selected c d d') | rewrite (prop_lookup_eq selected c d d')];
      auto. }
  assert (Hclr : all_clear d' p <-> all_clear d p).
  { unfold all_clear. rewrite (same_skeleton_children _ _ _ _ Hsk).
    split; intros H c Hc; specialize (H c Hc);
      apply In_getChildrenItems in Hc; destruct Hc as [Hc _];
      [rewrite <- (prop_lookup_eq selected c d d'), <- (prop_lookup_eq indeterminate c d d')
      | rewrite (prop_lookup_eq selected c d d'), (prop_lookup_eq indeterminate c d d')];
      auto. }
  unfold consistent_selected, consistent_indeterminate.
  rewrite (prop_lookup_eq selected p d d' Hp),
          (prop_lookup_eq indeterminate p d d' Hp), Hall, Hclr.
  tauto.
Qed.

Lemma all_selected_forallb d p :
  List.forallb (fun c => prop selected c d) (getChildrenItems false p d) = true
  <-> all_selected d p.
Proof. unfold all_selected. apply List.forallb_forall. Qed.

Lemma all_clear_forallb d p :
  List.forallb (fun c => negb (prop selected c d) && negb (prop indeterminate c d))
               (getChildrenItems false p d) = true
  <-> all_clear d p.
Proof.
  unfold all_clear. rewrite List.forallb_forall.
  split; intros H c Hc; specialize (H c Hc).
  - apply andb_true_iff in H. rewrite !negb_true_iff in H. exact H.
  - destruct H as [-> ->]. reflexivity.
Qed.

(** *** [syncAncestors] *)

Lemma syncAncestors_spec (fuel : nat) :
  forall (i : nat) (d : list SlTreeItem),
    document_order d -> i < fuel ->
    exists d' : list SlTreeItem,
      syncAncestors fuel i d = Some d' /\
      same_skeleton d d' /\
      (forall j, ~ ancestor d j i -> d' !! j = d !! j) /\
      (forall a, ancestor d a i ->
         consistent_selected d' a /\ consistent_indeterminate d' a).
Proof.
  induction fuel as [| fuel IH]; intros i d Hwf Hfuel; [lia |].
  cbn [syncAncestors].
  destruct (parentItemOf i d) as [p |] eqn:Hp.
  - set (allChecked :=
           List.forallb (fun c => prop selected c d) (getChildrenItems false p d)).
    set (allUnchecked :=
           List.forallb
             (fun c => negb (prop selected c d) && negb (prop indeterminate c d))
             (getChildrenItems false p d)).
    set (d2 := alter (set_indeterminate (negb allChecked && negb allUnchecked)) p
                 (alter (set_selected allChecked) p d)).
    assert (Hpi : p < i) by (apply (Hwf _ _ Hp)).
    assert (Hplen : p < length d).
    { apply parentItemOf_lt_length in Hp. lia. }
    assert (Hsk2 : same_skeleton d d2).
    { subst d2. eapply same_skeleton_trans; apply same_skeleton_alter;
        intros it; reflexivity. }
    assert (Hne2 : forall j, j <> p -> d2 !! j = d !! j).
    { intros j Hj. subst d2. rewrite !list_lookup_alter_ne by auto. reflexivity. }
    assert (Hcp : consistent_selected d2 p /\ consistent_indeterminate d2 p).
    { destruct (lookup_lt_is_Some_2 d p Hplen) as [it Hit].
      assert (Hs : prop selected p d2 = allChecked).
      { subst d2. unfold prop. rewrite !list_lookup_alter_eq, Hit. reflexivity. }
      assert (Hi : prop indeterminate p d2 = negb allChecked && negb allUnchecked).
      { subst d2. unfold prop. rewrite !list_lookup_alter_eq, Hit. reflexivity. }
      assert (Hall : all_selected d2 p <-> all_selected d p).
      { unfold all_selected. rewrite (same_skeleton_children _ _ _ _ Hsk2).
        split; intros H c Hc; specialize (H c Hc);
          apply In_getChildrenItems in Hc; destruct Hc as [Hc _];
          apply Hwf in Hc;
          [rewrite <- (prop_lookup_eq selected c d d2)
          | rewrite (prop_lookup_eq selected c d d2)];
          auto; apply Hne2; lia. }
      assert (Hclr : all_clear d2 p <-> all_clear d p).
      { unfold all_clear. rewrite (same_skeleton_children _ _ _ _ Hsk2).
        split; intros H c Hc; specialize (H c Hc);
          apply In_getChildrenItems in Hc; destruct Hc as [Hc _];
          apply Hwf in Hc;
          [rewrite <- (prop_lookup_eq selected c d d2),
                   <- (prop_lookup_eq indeterminate c d d2)
          | rewrite (prop_lookup_eq selected c d d2),
                    (prop_lookup_eq indeterminate c d d2)];
          auto; apply Hne2; lia. }
      unfold consistent_selected, consistent_indeterminate.
      rewrite Hs, Hi, Hall, Hclr, <- all_selected_forallb, <- all_clear_forallb.
      fold allChecked allUnchecked.
      destruct allChecked, allUnchecked; simpl; split; split; intros; try tauto;
        try discriminate; intuition congruence. }
    destruct (IH p d2) as (d' & Hrun & Hsk & Hout & Hanc).
    { eapply same_skeleton_order; eauto. }
    { lia. }
    exists d'. split; [exact Hrun |]. split; [eapply same_skeleton_trans; eauto |].
    split.
    + intros j Hj. rewrite Hout.
      * apply Hne2. intros ->. apply Hj. apply ancestor_parent. exact Hp.
      * intros Ha. apply Hj. eapply ancestor_above; [exact Hp |].
        eapply same_skeleton_ancestor; [apply same_skeleton_sym; exact Hsk2 | exact Ha].
    + intros a Ha. destruct (ancestor_of_child _ _ _ _ Hp Ha) as [-> | Ha'].
      * apply (consistent_transfer d2 d' p Hsk); [| | exact Hcp].
        -- apply Hout. intros Hself.
           apply (ancestor_lt d2) in Hself; [lia |].
           eapply same_skeleton_order; eauto.
        -- intros c Hc. apply Hout. intros Hcanc.
           assert (Hwf2 : document_order d2) by (eapply same_skeleton_order; eauto).
           apply (ancestor_lt d2) in Hcanc; [| exact Hwf2].
           apply Hwf2 in Hc. lia.
      * apply Hanc. eapply same_skeleton_ancestor; eauto.
  - exists d. split; [reflexivity |]. split; [apply same_skeleton_refl |].
    split; [reflexivity |].
    intros a Ha. inversion Ha; congruence.
Qed.


(** *** [syncDescendants] *)

Lemma for_of_total {A S : Type} (I : list A -> S -> Prop)
    (body : A -> S -> option S) (xs : list A) (s0 : S) :
  I [] s0 ->
  (forall done x rest s,
     xs = done ++ x :: rest -> I done s ->
     exists s', body x s = Some s' /\ I (done ++ [x]) s') ->
  exists s', for_of body xs s0 = Some s' /\ I xs s'.
Proof.
  intros Hinit Hstep.
  assert (Hgen : forall rest done s,
             xs = done ++ rest -> I done s ->
             exists s', for_of body rest s = Some s' /\ I xs s').
  { induction rest as [| x rest IH]; intros done s Hxs Hs.
    - rewrite List.app_nil_r in Hxs. subst done. exists s. split; [reflexivity | exact Hs].
    - destruct (Hstep done x rest s Hxs Hs) as (s1 & Hb & Hs1).
      destruct (IH (done ++ [x]) s1) as (s' & Hrun & Hs').
      + rewrite <- List.app_assoc. exact Hxs.
      + exact Hs1.
      + exists s'. split; [| exact Hs']. simpl. rewrite Hb. exact Hrun. }
  apply (Hgen xs [] s0); [reflexivity | exact Hinit].
Qed.

Lemma ancestor_via_child d i j :
  ancestor d i j ->
  exists c, parentItemOf c d = Some i /\ in_subtree d c j.
Proof.
  induction 1 as [j Hp | j p Hp _ (c & Hc & Hsub)].
  - exists j. split; [exact Hp | left; reflexivity].
  - exists c. split; [exact Hc |]. right. destruct Hsub as [-> | Ha].
    + apply ancestor_parent. exact Hp.
    + eapply ancestor_above; eauto.
Qed.

Lemma in_subtree_ancestor d i c j :
  parentItemOf c d = Some i -> in_subtree d c j -> ancestor d i j.
Proof.
  intros Hc [-> | Ha].
  - apply ancestor_parent. exact Hc.
  - eapply ancestor_trans; [apply ancestor_parent; exact Hc | exact Ha].
Qed.

Lemma sibling_not_above d i c x :
  document_order d ->
  parentItemOf c d = Some i -> parentItemOf x d = Some i -> ~ ancestor d x c.
Proof.
  intros Hwf Hc Hx Ha.
  pose proof (Hwf _ _ Hx) as Hlt.
  destruct (ancestor_of_child _ _ _ _ Hc Ha) as [-> | Ha']; [lia |].
  apply (ancestor_lt _ _ _ Hwf) in Ha'. lia.
Qed.

Lemma sibling_subtrees_disjoint d i c x j :
  document_order d ->
  parentItemOf c d = Some i -> parentItemOf x d = Some i -> c <> x ->
  in_subtree d c j -> in_subtree d x j -> False.
Proof.
  intros Hwf Hc Hx Hne [Hjc | Hcj] [Hjx | Hxj].
  - congruence.
  - subst j. eapply (sibling_not_above d i c x); eauto.
  - subst j. eapply (sibling_not_above d i x c); eauto.
  - destruct (ancestor_chain _ _ _ _ Hcj Hxj) as [-> | [H | H]].
    + congruence.
    + eapply (sibling_not_above d i x c); eauto.
    + eapply (sibling_not_above d i c x); eauto.
Qed.

Lemma syncDescendants_spec (fuel : nat) :
  forall (i : nat) (d : list SlTreeItem),
    document_order d -> 1 <= fuel -> length d <= i + fuel ->
    exists d' : list SlTreeItem,
      syncDescendants fuel i d = Some d' /\
      same_skeleton d d' /\
      (forall j, ~ ancestor d i j -> d' !! j = d !! j) /\
      (forall j p, ancestor d i j -> parentItemOf j d = Some p ->
         prop selected j d' = negb (prop disabled j d) && prop selected p d').
Proof.
  induction fuel as [| fuel IH]; intros i d Hwf Hpos Hfuel; [lia |].
  cbn [syncDescendants].
  set (body := fun (childItem : nat) (d0 : list SlTreeItem) =>
                 syncDescendants fuel childItem
                   (alter (set_selected (negb (prop disabled childItem d0)
                                         && prop selected i d0)) childItem d0)).
  set (Inv := fun (done : list nat) (s : list SlTreeItem) =>
    same_skeleton d s /\
    (forall j, (forall c, In c done -> ~ in_subtree d c j) -> s !! j = d !! j) /\
    (forall j p c, In c done -> in_subtree d c j -> parentItemOf j d = Some p ->
       prop selected j s = negb (prop disabled j d) && prop selected p s)).
  destruct (for_of_total Inv body (getChildrenItems true i d) d)
    as (d' & Hrun & Hsk & Hout & Hin).
  - split; [apply same_skeleton_refl |]. split; [reflexivity |].
    intros j p c [].
  - intros done x rest s Hxs (Hsk & Hout & Hin).
    assert (Hxin : In x (getChildrenItems true i d)).
    { rewrite Hxs. apply List.in_or_app. right. left. reflexivity. }
    assert (Hdone : forall c, In c done -> parentItemOf c d = Some i /\ c <> x).
    { intros c Hc. split.
      - assert (Hcin : In c (getChildrenItems true i d)).
        { rewrite Hxs. apply List.in_or_app. left. exact Hc. }
        apply In_getChildrenItems in Hcin. tauto.
      - intros ->. pose proof (NoDup_getChildrenItems true i d) as Hnd.
        rewrite Hxs in Hnd. apply List.NoDup_remove_2 in Hnd.
        apply Hnd. apply List.in_or_app. left. exact Hc. }
    apply In_getChildrenItems in Hxin. destruct Hxin as [Hxp _].
    pose proof (Hwf _ _ Hxp) as Hix.
    pose proof (parentItemOf_lt_length _ _ _ Hxp) as Hxlen.
    set (v := negb (prop disabled x s) && prop selected i s).
    set (d1 := alter (set_selected v) x s).
    assert (Hsk1 : same_skeleton s d1).
    { subst d1. apply same_skeleton_alter. intros it. reflexivity. }
    assert (Hskd1 : same_skeleton d d1) by (eapply same_skeleton_trans; eauto).
    assert (Hwf1 : document_order d1) by (eapply same_skeleton_order; eauto).
    assert (Hne1 : forall j, j <> x -> d1 !! j = s !! j).
    { intros j Hj. subst d1. rewrite list_lookup_alter_ne by auto. reflexivity. }
    destruct (IH x d1 Hwf1) as (d2 & Hrun2 & Hsk2 & Hout2 & Hin2).
    { lia. }
    { rewrite (same_skeleton_length _ _ Hskd1). lia. }
    assert (Hkeep : forall j, ~ in_subtree d x j -> d2 !! j = s !! j).
    { intros j Hj. rewrite Hout2.
      - apply Hne1. intros ->. apply Hj. left. reflexivity.
      - intros Ha. apply Hj. right.
        eapply same_skeleton_ancestor; [apply same_skeleton_sym; exact Hskd1 | exact Ha]. }
    assert (Hi_out : ~ in_subtree d x i).
    { intros [Hxi | Ha]; [lia |]. apply (ancestor_lt _ _ _ Hwf) in Ha. lia. }
    exists d2. split; [exact Hrun2 |]. split; [| split].
    + eapply same_skeleton_trans; eauto.
    + intros j Hj. rewrite Hkeep.
      * apply Hout. intros c Hc. apply Hj. apply List.in_or_app. left. exact Hc.
      * apply Hj. apply List.in_or_app. right. left. reflexivity.
    + intros j p c Hc Hsub Hjp. apply List.in_app_or in Hc.
      destruct Hc as [Hc | [<- | []]].
      * destruct (Hdone c Hc) as [Hcp Hcx].
        assert (Hj_out : ~ in_subtree d x j).
        { intros Hxj. eapply (sibling_subtrees_disjoint d i c x j); eauto. }
        assert (Hp_out : ~ in_subtree d x p).
        { destruct Hsub as [-> | Ha].
          - assert (p = i) by congruence. subst p. exact Hi_out.
          - intros Hxp'. eapply (sibling_subtrees_disjoint d i c x p); eauto.
            destruct (ancestor_of_child _ _ _ _ Hjp Ha) as [-> | Ha'];
              [left; reflexivity | right; exact Ha']. }
        rewrite (prop_lookup_eq selected j s d2 (Hkeep j Hj_out)).
        rewrite (prop_lookup_eq selected p s d2 (Hkeep p Hp_out)).
        eapply Hin; eauto.
      * destruct Hsub as [-> | Ha].
        -- assert (p = i) by congruence. subst p.
           rewrite (prop_lookup_eq selected i s d2 (Hkeep i Hi_out)).
           assert (Hx2 : d2 !! x = d1 !! x).
           { apply Hout2. intros Hself. apply (ancestor_lt _ _ _ Hwf1) in Hself. lia. }
           rewrite (prop_lookup_eq selected x d1 d2 Hx2).
           rewrite <- (same_skeleton_disabled _ _ x Hsk).
           subst d1. unfold prop at 1. rewrite list_lookup_alter_eq.
           destruct (lookup_lt_is_Some_2 s x) as [it Hit].
           { rewrite (same_skeleton_length _ _ Hsk). exact Hxlen. }
           rewrite Hit. reflexivity.
        -- rewrite <- (same_skeleton_disabled _ _ j Hskd1).
           apply Hin2.
           ++ eapply same_skeleton_ancestor; eauto.
           ++ rewrite (same_skeleton_parent _ _ _ Hskd1). exact Hjp.
  - exists d'. split; [exact Hrun |]. split; [exact Hsk |]. split.
    + intros j Hj. apply Hout. intros c Hc Hsub. apply Hj.
      apply In_getChildrenItems in Hc. destruct Hc as [Hc _].
      eapply in_subtree_ancestor; eauto.
    + intros j p Ha Hjp.
      destruct (ancestor_via_child _ _ _ Ha) as (c & Hc & Hsub).
      eapply Hin; eauto.
      apply In_getChildrenItems. split; [exact Hc | left; reflexivity].
Qed.


(** *** What [syncDescendants] leaves alone *)

Lemma for_of_preserves_in {A S : Type} (P : S -> Prop)
    (body : A -> S -> option S) (xs : list A) :
  (forall x s s', In x xs -> P s -> body x s = Some s' -> P s') ->
  forall s s', P s -> for_of body xs s = Some s' -> P s'.
Proof.
  induction xs as [| x xs IH]; intros Hbody s s' Hs Hrun; simpl in Hrun.
  - inversion Hrun; subst; exact Hs.
  - destruct (body x s) as [s1 |] eqn:E; [| discriminate].
    eapply IH; [| | exact Hrun].
    + intros y t t' Hy. apply Hbody. right. exact Hy.
    + eapply Hbody; [left; reflexivity | exact Hs | exact E].
Qed.

Lemma syncDescendants_skeleton (fuel i : nat) (d d' : list SlTreeItem) :
  syncDescendants fuel i d = Some d' -> same_skeleton d d'.
Proof.
  intros Hrun. apply syncDescendants_writes_selected_only in Hrun.
  unfold same_skeleton.
  assert (Hs : forall l, List.map skeleton l
                 = List.map skeleton (List.map (set_selected false) l)).
  { intros l. rewrite List.map_map. apply List.map_ext. intros it. reflexivity. }
  rewrite (Hs d'), (Hs d), Hrun. reflexivity.
Qed.

(** Whatever the tree and the bound, an item that does not lie below
    [treeItem] is not written. *)
Lemma syncDescendants_outside (fuel : nat) :
  forall (i : nat) (d d' : list SlTreeItem),
    syncDescendants fuel i d = Some d' ->
    forall j : nat, ~ ancestor d i j -> d' !! j = d !! j.
Proof.
  induction fuel as [| fuel IH]; intros i d d' Hrun; [discriminate |].
  cbn [syncDescendants] in Hrun.
  apply (for_of_preserves_in
           (fun s => same_skeleton d s
                     /\ forall j, ~ ancestor d i j -> s !! j = d !! j)
           _ _) with (s := d) (s' := d') in Hrun.
  - apply Hrun.
  - intros x s s' Hx [Hsk Hout] Hbody.
    apply In_getChildrenItems in Hx. destruct Hx as [Hxp _].
    set (d1 := alter (set_selected (negb (prop disabled x s)
                                    && prop selected i s)) x s) in Hbody.
    assert (Hsk1 : same_skeleton s d1).
    { subst d1. apply same_skeleton_alter. intros it. reflexivity. }
    assert (Hskd1 : same_skeleton d d1) by (eapply same_skeleton_trans; eauto).
    split.
    + eapply same_skeleton_trans; [exact Hskd1 |].
      eapply syncDescendants_skeleton. exact Hbody.
    + intros j Hj.
      rewrite (IH x d1 s' Hbody j).
      * subst d1. rewrite list_lookup_alter_ne.
        -- apply Hout. exact Hj.
        -- intros ->. apply Hj. apply ancestor_parent. exact Hxp.
      * intros Ha. apply Hj.
        apply (ancestor_trans d i x j); [apply ancestor_parent; exact Hxp |].
        eapply same_skeleton_ancestor;
          [apply same_skeleton_sym; exact Hskd1 | exact Ha].
  - split; [apply same_skeleton_refl | reflexivity].
Qed.

(** C10.  On a tree in document order [syncDescendants] returns.  Whenever
    it returns, every item has the flags it had before, [selected] apart, so
    that [indeterminate] is never written, and every item that does not lie
    below the item it was called on is left as it was: only the [selected]
    flags of descendants are written.  Selecting item [0] of
    [half_selected_branch] leaves its indeterminate child [1] both selected
    and indeterminate; and pushing the selection of item [1] of
    [two_branches] down selects its children [2] and [3] and leaves the
    items [0], [1], [4], [5] and [6] as they were. *)
Theorem syncDescendants_keeps_indeterminate :
  (forall (i : nat) (d : list SlTreeItem),
     document_orderb d = false \/
     exists d' : list SlTreeItem,
       syncDescendants (S (length d)) i d = Some d') /\
  (forall (fuel i : nat) (d : list SlTreeItem),
     match syncDescendants fuel i d with
     | Some d' =>
         List.map (set_selected false) d' = List.map (set_selected false) d /\
         List.map indeterminate d' = List.map indeterminate d /\
         (forall j : nat, ~ ancestor d i j -> d' !! j = d !! j)
     | None => True
     end) /\
  (exists d' : list SlTreeItem,
     syncDescendants 5 0
       (alter (set_selected true) 0 (treeItems half_selected_branch)) = Some d' /\
     prop indeterminate 1 (treeItems half_selected_branch) = true /\
     prop selected 1 (treeItems half_selected_branch) = false /\
     prop selected 1 d' = true /\
     prop indeterminate 1 d' = true) /\
  (exists t' : SlTree,
     selectItem 0 half_selected_branch = Some (t', [0; 1; 2; 3]) /\
     prop selected 1 (treeItems t') = true /\
     prop indeterminate 1 (treeItems t') = true) /\
  (let d := alter (set_selected true) 1 (treeItems two_branches) in
   exists d' : list SlTreeItem,
     syncDescendants 8 1 d = Some d' /\
     (prop selected 3 d = false /\ prop selected 2 d' = true
      /\ prop selected 3 d' = true) /\
     (prop indeterminate 1 d' = true /\ prop indeterminate 4 d' = true
      /\ prop selected 4 d' = false /\ prop selected 6 d' = false) /\
     Forall (fun j => d' !! j = d !! j) [0; 1; 4; 5; 6]).
Proof.
  split; [| split; [| split; [| split]]].
  - intros i d. destruct (document_orderb d) eqn:Hord; [right | left; reflexivity].
    apply document_orderb_spec in Hord.
    destruct (syncDescendants_spec (S (length d)) i d Hord) as (d' & Hrun & _);
      [lia | lia |].
    exists d'. exact Hrun.
  - intros fuel i d. destruct (syncDescendants fuel i d) as [d' |] eqn:E; [| exact I].
    split; [| split].
    + apply syncDescendants_writes_selected_only in E. exact E.
    + apply syncDescendants_writes_selected_only in E.
      replace indeterminate with (fun it => indeterminate (set_selected false it))
        by reflexivity.
      rewrite <- (List.map_map (set_selected false) indeterminate d').
      rewrite <- (List.map_map (set_selected false) indeterminate d).
      rewrite E. reflexivity.
    + exact (syncDescendants_outside fuel i d d' E).
  - eexists. repeat split; vm_compute; reflexivity.
  - eexists. repeat split; vm_compute; reflexivity.
  - cbv zeta. eexists. split; [vm_compute; reflexivity |].
    split; [repeat split |]. split; [repeat split |].
    repeat constructor.
Qed.

(** The theorem on [two_branches]: item [4] does not lie below item [1], and
    pushing the selection of item [1] down leaves it as it was. *)
Lemma syncDescendants_keeps_indeterminate_witness :
  let d := alter (set_selected true) 1 (treeItems two_branches) in
  ~ ancestor d 1 4 /\
  match syncDescendants 8 1 d with
  | Some d' => d' !! 4 = d !! 4
  | None => True
  end.
Proof.
  cbv zeta.
  assert (Hout : ~ ancestor (alter (set_selected true) 1 (treeItems two_branches)) 1 4).
  { intros H. inversion H as [i Hp | i p Hp Ha]; subst.
    - vm_compute in Hp. discriminate.
    - vm_compute in Hp. inversion Hp; subst p.
      inversion Ha as [i Hp0 | i p Hp0 Ha0]; subst; vm_compute in Hp0; discriminate. }
  split; [exact Hout |].
  pose proof (proj1 (proj2 syncDescendants_keeps_indeterminate) 8 1
                (alter (set_selected true) 1 (treeItems two_branches))) as H.
  destruct (syncDescendants 8 1 (alter (set_selected true) 1 (treeItems two_branches)));
    [| exact I].
  destruct H as (_ & _ & Hframe). apply Hframe. exact Hout.
Defined.

(** *** [selectItem] in multiple mode *)

Lemma syncCheckboxes_spec (i : nat) (d : list SlTreeItem) :
  document_order d -> i < length d ->
  exists d' : list SlTreeItem,
    syncCheckboxes i d = Some d' /\
    same_skeleton d d' /\
    d' !! i = d !! i /\
    (forall a, ancestor d a i ->
       consistent_selected d' a /\ consistent_indeterminate d' a) /\
    (forall j p, ancestor d i j -> parentItemOf j d = Some p ->
       prop selected j d' = negb (prop disabled j d) && prop selected p d') /\
    (forall j, ~ ancestor d j i -> ~ ancestor d i j -> d' !! j = d !! j).
Proof.
  intros Hwf Hi. unfold syncCheckboxes.
  destruct (syncAncestors_spec (S (length d)) i d Hwf) as (d1 & Hrun1 & Hsk1 & Hout1 & Hanc1);
    [lia |].
  rewrite Hrun1.
  assert (Hwf1 : document_order d1) by (eapply same_skeleton_order; eauto).
  destruct (syncDescendants_spec (S (length d1)) i d1 Hwf1) as (d2 & Hrun2 & Hsk2 & Hout2 & Hin2);
    [lia | lia |].
  exists d2. split; [exact Hrun2 |].
  assert (Hno_self : forall (e : list SlTreeItem), document_order e -> ~ ancestor e i i).
  { intros e He Ha. apply (ancestor_lt _ _ _ He) in Ha. lia. }
  split; [eapply same_skeleton_trans; eauto |]. split; [| split; [| split]].
  - rewrite Hout2 by (apply Hno_self; exact Hwf1).
    apply Hout1. apply Hno_self. exact Hwf.
  - intros a Ha.
    assert (Hai : a < i) by (apply (ancestor_lt d a i Hwf Ha)).
    apply (consistent_transfer d1 d2 a Hsk2); [| | apply Hanc1; exact Ha].
    + apply Hout2. intros Hia. apply (ancestor_lt _ _ _ Hwf1) in Hia. lia.
    + intros c Hc. apply Hout2. intros Hic.
      destruct (ancestor_of_child _ _ _ _ Hc Hic) as [-> | Hia]; [lia |].
      apply (ancestor_lt _ _ _ Hwf1) in Hia. lia.
  - intros j p Ha Hjp.
    rewrite <- (same_skeleton_disabled _ _ j Hsk1).
    apply Hin2.
    + eapply same_skeleton_ancestor; eauto.
    + rewrite (same_skeleton_parent _ _ _ Hsk1). exact Hjp.
  - intros j Hji Hij. rewrite Hout2.
    + apply Hout1. exact Hji.
    + intros Ha. apply Hij.
      eapply same_skeleton_ancestor; [apply same_skeleton_sym; exact Hsk1 | exact Ha].
Qed.





(** Items away from the selected one are not revisited: selecting item [0]
    of [stale_sibling] leaves item [1] unselected above its selected
    child. *)
Example selectItem_skips_other_branches :
  exists t' : SlTree,
    selectItem 0 stale_sibling = Some (t', [0; 2]) /\
    getChildrenItems false 1 (treeItems t') = [2] /\
    prop selected 1 (treeItems t') = false /\
    prop selected 2 (treeItems t') = true /\
    ~ consistent_selected (treeItems t') 1.
Proof.
  eexists. split; [vm_compute; reflexivity |].
  split; [reflexivity |]. split; [reflexivity |]. split; [reflexivity |].
  intros [_ Hcons].
  assert (Hsel : prop selected 1
            [ mkItem None true false false false false false true;
              mkItem None false false false true false false true;
              mkItem (Some 1) true false false false false false true ] = true).
  { apply Hcons. intros c Hc. change (In c [2]) in Hc.
    destruct Hc as [<- | []]. reflexivity. }
  discriminate Hsel.
Qed.

End TreeFacts.

(** ** Pointer drag *)

Module DragFacts.
Import Drag.

(** C9 (amended).  Called with an initial event, [drag] first attaches the
    [pointermove] and [pointerup] listeners and then reports the position of
    that event, relative to the container, through [onMove]; nothing is
    reported before a listener is attached. *)
Theorem drag_initialEvent_trace (container : Container) (ev : PointerEvent) :
  drag container (Some ev) =
  drag container None
  ++ [ onMove (pageX ev - (dims_left container + pageXOffset container))
              (pageY ev - (dims_top container + pageYOffset container)) ] /\
  drag container None =
  [ addEventListener "pointermove" move_listener;
    addEventListener "pointerup" stop_listener ] /\
  reports_before_attaching (drag container (Some ev)) = false.
Proof.
  unfold drag, move. cbn [List.app reports_before_attaching].
  split; [reflexivity |]. split; reflexivity.
Qed.

(** C9 (counterexample).  For a container at [(10, 20)] and a pointer-down
    at [(15, 40)] both listeners are attached before [(5, 20)] is
    reported. *)
Lemma drag_attaches_before_reporting :
  drag container_10_20 (Some pointer_15_40) =
  [ addEventListener "pointermove" move_listener;
    addEventListener "pointerup" stop_listener;
    onMove (15 - (10 + 0)) (40 - (20 + 0)) ] /\
  reports_before_attaching (drag container_10_20 (Some pointer_15_40)) = false.
Proof. split; reflexivity. Qed.

End DragFacts.

(** * Further properties *)

(** ** Multi-range slider *)

Module MultiRangeMore.
Import MultiRange MultiRangeFacts.

(** *** Comparing value arrays *)

(** X1.  [arraysDiffer] answers [false] exactly when the two arrays have
    the same length and hold numerically equal values position by
    position. *)
Theorem arraysDiffer_spec (a b : list Q) :
  arraysDiffer a b = false <-> Forall2 Qeq a b.
Proof.
  split.
  - revert b. induction a as [| x a IH]; intros [| y b] H; simpl in H;
      try discriminate; constructor.
    + destruct (Qeq_bool x y) eqn:E; [| discriminate].
      apply Qeq_bool_iff. exact E.
    + apply IH. destruct (Qeq_bool x y); [exact H | discriminate].
  - induction 1 as [| x y a b Hxy _ IH]; [reflexivity |].
    simpl. apply Qeq_bool_iff in Hxy. rewrite Hxy. exact IH.
Qed.

(** *** Rendering *)

Lemma map_set_fresh (k : nat) (v : Q) (m : list (nat * Q)) :
  (forall k' v', In (k', v') m -> (k' < k)%nat) ->
  map_set k v m = m ++ [(k, v)].
Proof.
  induction m as [| [k' v'] m IH]; intros Hm; [reflexivity |].
  simpl. assert (Hlt : (k' < k)%nat) by (apply (Hm k' v'); left; reflexivity).
  destruct (Nat.eqb k k') eqn:E; [apply Nat.eqb_eq in E; lia |].
  rewrite IH; [reflexivity |]. intros k2 v2 H. apply (Hm k2 v2). right. exact H.
Qed.

Lemma render_handles_fresh (vs : list Q) :
  forall (next : nat) (m : list (nat * Q)),
    (forall k v, In (k, v) m -> (k < next)%nat) ->
    render_handles vs next m =
    ((next + List.length vs)%nat,
     m ++ List.combine (List.seq next (List.length vs)) vs).
Proof.
  induction vs as [| v vs IH]; intros next m Hm.
  - simpl. rewrite Nat.add_0_r, List.app_nil_r. reflexivity.
  - cbn [render_handles]. rewrite map_set_fresh by exact Hm.
    rewrite IH.
    + cbn [List.length List.seq List.combine].
      rewrite <- List.app_assoc. cbn [List.app].
      f_equal. lia.
    + intros k w H. apply List.in_app_or in H. destruct H as [H | [H | []]].
      * specialize (Hm k w H). lia.
      * inversion H; subst. lia.
Qed.

Lemma map_get_combine_seq (vs : list Q) :
  forall (next k : nat) (v : Q),
    nth_error vs k = Some v ->
    map_get (next + k) (List.combine (List.seq next (List.length vs)) vs) = Some v.
Proof.
  induction vs as [| w vs IH]; intros next k v Hk.
  - destruct k; discriminate.
  - cbn [List.length List.seq List.combine map_get].
    destruct k as [| k].
    + rewrite Nat.add_0_r, Nat.eqb_refl. simpl in Hk. exact Hk.
    + replace (Nat.eqb (next + S k) next) with false
        by (symmetry; apply Nat.eqb_neq; lia).
      replace (next + S k)%nat with (S next + k)%nat by lia.
      apply IH. exact Hk.
Qed.

Lemma combine_seq_fst (vs : list Q) (next : nat) :
  List.map fst (List.combine (List.seq next (List.length vs)) vs)
  = List.seq next (List.length vs).
Proof.
  revert next. induction vs as [| v vs IH]; intros next; [reflexivity |].
  cbn [List.length List.seq List.combine List.map fst]. rewrite IH. reflexivity.
Qed.

Lemma combine_seq_snd (vs : list Q) (next : nat) :
  List.map snd (List.combine (List.seq next (List.length vs)) vs) = vs.
Proof.
  revert next. induction vs as [| v vs IH]; intros next; [reflexivity |].
  cbn [List.length List.seq List.combine List.map snd]. rewrite IH. reflexivity.
Qed.

(** X2.  [render] leaves the values alone, mints one slider id per value,
    consecutive from [nextId] on, advances [nextId] by the number of
    values, and maps the [k]-th id to the [k]-th value. *)
Theorem render_spec (s : SlMultiRange) :
  let s' := render s in
  value s' = value s /\
  nextId s' = (nextId s + List.length (value s))%nat /\
  List.map fst (sliderValues s') = List.seq (nextId s) (List.length (value s)) /\
  map_values (sliderValues s') = value s /\
  (forall (k : nat) (v : Q),
     nth_error (value s) k = Some v ->
     map_get (nextId s + k) (sliderValues s') = Some v).
Proof.
  unfold render.
  rewrite render_handles_fresh by (intros k v []).
  cbn [List.app]. unfold set_nextId, set_sliderValues, map_values.
  cbn [value nextId sliderValues].
  split; [reflexivity |]. split; [reflexivity |]. split; [| split].
  - apply combine_seq_fst.
  - apply combine_seq_snd.
  - intros k v Hk. apply map_get_combine_seq. exact Hk.
Qed.

Lemma render_spec_witness :
  map_get 4 (sliderValues (render eighths_range)) = Some 6.
Proof.
  destruct (render_spec eighths_range) as (_ & _ & _ & _ & H).
  apply (H 1%nat 6). reflexivity.
Defined.

(** *** From pointer position to value *)

(** X3.  The pointer fraction lies in [[0, 1]], does not decrease when the
    pointer moves to the right, and is [0] when the track is not wider than
    the handle. *)
Theorem getNormalizedValueFromClientX_range
    (h : Handle) (pid : nat) (x1 x2 left width : Q) :
  let f := fun x => getNormalizedValueFromClientX (mkPointer h pid x left width) in
  (0 <= f x1 /\ f x1 <= 1) /\
  (x1 <= x2 -> f x1 <= f x2) /\
  (width <= clientWidth h -> f x1 == 0).
Proof.
  cbv zeta. unfold getNormalizedValueFromClientX.
  cbn [target bounds_width bounds_left clientX].
  set (size := width - clientWidth h).
  set (off := left + clientWidth h / 2).
  destruct (Qle_bool size 0) eqn:Es.
  - apply Qle_bool_iff in Es. repeat split; lra.
  - apply Qle_bool_false in Es.
    assert (Hdiv : forall x, 0 < x - off -> x - off < size ->
                     0 <= (x - off) / size /\ (x - off) / size <= 1).
    { intros x H0 H1. split.
      - apply Qle_shift_div_l; lra.
      - apply Qle_shift_div_r; lra. }
    split; [| split].
    + destruct (Qle_bool (x1 - off) 0) eqn:E1; [lra |].
      destruct (Qle_bool size (x1 - off)) eqn:E2; [lra |].
      apply Qle_bool_false in E1, E2. apply Hdiv; assumption.
    + intros Hx.
      assert (Hmono : (x1 - off) / size <= (x2 - off) / size).
      { unfold Qdiv. apply Qmult_le_compat_r; [lra |].
        apply Qinv_le_0_compat. lra. }
      pose proof (Hdiv x1) as H1. pose proof (Hdiv x2) as H2.
      destruct (Qle_bool (x1 - off) 0) eqn:E1;
        destruct (Qle_bool (x2 - off) 0) eqn:E2;
        destruct (Qle_bool size (x1 - off)) eqn:E3;
        destruct (Qle_bool size (x2 - off)) eqn:E4; qprop; try lra;
        try (specialize (H1 ltac:(lra) ltac:(lra)));
        try (specialize (H2 ltac:(lra) ltac:(lra))); lra.
    + intros Hw. subst size. lra.
Qed.

Lemma getNormalizedValueFromClientX_range_witness :
  getNormalizedValueFromClientX (mkPointer (mkHandle 2 (Some 7%nat) 20) 7 50 0 200)
  <= getNormalizedValueFromClientX (mkPointer (mkHandle 2 (Some 7%nat) 20) 7 120 0 200).
Proof.
  destruct (getNormalizedValueFromClientX_range
              (mkHandle 2 (Some 7%nat) 20) 7 50 120 0 200) as (_ & H & _).
  apply H. unfold Qle; simpl; lia.
Defined.


(** *** The slider-id map under the handlers *)

Lemma map_get_set_eq (k : nat) (v : Q) (m : list (nat * Q)) :
  map_get k (map_set k v m) = Some v.
Proof.
  induction m as [| [k' v'] m IH]; simpl.
  - rewrite Nat.eqb_refl. reflexivity.
  - destruct (Nat.eqb k k') eqn:E; simpl.
    + rewrite Nat.eqb_refl. reflexivity.
    + rewrite E. exact IH.
Qed.

Lemma map_get_set_ne (k k' : nat) (v : Q) (m : list (nat * Q)) :
  k <> k' -> map_get k' (map_set k v m) = map_get k' m.
Proof.
  intros Hne. induction m as [| [k2 v2] m IH]; simpl.
  - replace (Nat.eqb k' k) with false by (symmetry; apply Nat.eqb_neq; auto).
    reflexivity.
  - destruct (Nat.eqb k k2) eqn:E; simpl.
    + apply Nat.eqb_eq in E. subst k2.
      replace (Nat.eqb k' k) with false by (symmetry; apply Nat.eqb_neq; auto).
      reflexivity.
    + rewrite IH. reflexivity.
Qed.

Lemma map_set_keys (k : nat) (v : Q) (m : list (nat * Q)) :
  map_has k m = true -> List.map fst (map_set k v m) = List.map fst m.
Proof.
  unfold map_has. induction m as [| [k' v'] m IH]; simpl; [discriminate |].
  destruct (Nat.eqb k k') eqn:E; simpl.
  - intros _. apply Nat.eqb_eq in E. subst. reflexivity.
  - intros H. rewrite IH by exact H. reflexivity.
Qed.


Lemma map_has_get (k : nat) (m : list (nat * Q)) (v : Q) :
  map_get k m = Some v -> map_has k m = true.
Proof. unfold map_has. intros ->. reflexivity. Qed.

Lemma handles_kept_refl s :
  Permutation (map_values (sliderValues s)) (value s) -> handles_kept s s.
Proof. intros H. repeat split; auto. Qed.

Lemma handles_kept_write s (k : nat) (v : Q) :
  Permutation (map_values (sliderValues s)) (value s) ->
  map_has k (sliderValues s) = true ->
  let s1 := set_sliderValues s (map_set k v (sliderValues s)) in
  handles_kept s
    (updateActiveTrack (set_value s1 (sort (map_values (sliderValues s1))))).
Proof.
  intros Hperm Hhas s1.
  assert (Hkeys : List.map fst (map_set k v (sliderValues s))
                  = List.map fst (sliderValues s)) by (apply map_set_keys; exact Hhas).
  unfold handles_kept, updateActiveTrack.
  destruct (activeTrack _); subst s1; fields.
  all: repeat split; try exact Hkeys; try apply sort_sorted.
  all: try apply NumericSort.Permuted_sort.
  all: rewrite <- (Permutation_length (NumericSort.Permuted_sort _));
    rewrite <- (Permutation_length Hperm);
    unfold map_values; rewrite !List.length_map;
    apply (f_equal (@List.length _)) in Hkeys;
    rewrite !List.length_map in Hkeys; exact Hkeys.
Qed.

(** X5.  If the stored values are a rearrangement of the values of the
    handles, then after a pointer move and after a key press they still
    are, the handles and their order are the same, the number of values is
    the same, and the bounds and the step are untouched. *)
Theorem handlers_keep_handles (s : SlMultiRange)
    (pe : PointerEvent) (ke : KeyboardEvent) :
  Permutation (map_values (sliderValues s)) (value s) ->
  handles_kept s (fst (onDragHandle s pe)) /\
  handles_kept s (fst (fst (onKeyPress s ke))).
Proof.
  intros Hperm. split.
  - unfold onDragHandle.
    destruct (disabled s); [apply handles_kept_refl; exact Hperm |].
    destruct (map_has _ _) eqn:Hhas; cbn [negb];
      [| apply handles_kept_refl; exact Hperm].
    destruct (dataset_pointerId (target pe)) as [pid |];
      [| apply handles_kept_refl; exact Hperm].
    destruct (negb (Nat.eqb pid (pointerId pe)));
      [apply handles_kept_refl; exact Hperm |].
    cbn [fst]. apply handles_kept_write; assumption.
  - unfold onKeyPress.
    destruct (map_get _ _) as [old |] eqn:Hget;
      [| apply handles_kept_refl; exact Hperm].
    destruct (keyValue s (key ke) old) as [v |];
      [| apply handles_kept_refl; exact Hperm].
    destruct (negb (Qeq_bool v old));
      [| apply handles_kept_refl; exact Hperm].
    cbn [fst]. apply handles_kept_write; [exact Hperm |].
    eapply map_has_get; eauto.
Qed.

Lemma handlers_keep_handles_witness :
  handles_kept eighths_range (fst (onDragHandle eighths_range drag_right)).
Proof.
  apply (handlers_keep_handles eighths_range drag_right
           (mkKey (mkHandle 1 None 20) "End")).
  unfold eighths_range, map_values. cbn [sliderValues value List.map snd].
  apply Permutation_refl.
Defined.


(** *** Values stay within the range *)






(** *** The normalisation pass on a whole sequence *)






(** *** The active track after a normalisation pass *)







(** *** Press, move, release *)

(** X11.  On an enabled slider, pressing a rendered handle captures the
    pointer; a move of that pointer then writes the dragged value into that
    handle's slot only and stores the sorted handle values; moves and
    releases of another pointer are ignored; the release of the captured
    pointer emits one [sl-change] and drops the capture, after which a
    second release and further moves of that pointer are ignored. *)
Theorem press_move_release (s : SlMultiRange) (down : PointerEvent)
    (x left width : Q) (other : nat) :
  disabled s = false ->
  map_has (dataset_sliderId (target down)) (sliderValues s) = true ->
  other <> pointerId down ->
  let handle := onClickHandle s down in
  let move := mkPointer handle (pointerId down) x left width in
  let s' := fst (onDragHandle s move) in
  map_get (dataset_sliderId (target down)) (sliderValues s')
  = Some (dragValue s (getNormalizedValueFromClientX move)) /\
  (forall k, k <> dataset_sliderId (target down) ->
     map_get k (sliderValues s') = map_get k (sliderValues s)) /\
  value s' = sort (map_values (sliderValues s')) /\
  onDragHandle s (mkPointer handle other x left width) = (s, []) /\
  onReleaseHandle (mkPointer handle other x left width) = (handle, []) /\
  (let released := fst (onReleaseHandle move) in
   onReleaseHandle move = (released, [sl_change]) /\
   dataset_pointerId released = None /\
   onReleaseHandle (mkPointer released (pointerId down) x left width)
   = (released, []) /\
   onDragHandle s (mkPointer released (pointerId down) x left width) = (s, [])).
Proof.
  intros Hdis Hhas Hother. cbv zeta.
  unfold onClickHandle. rewrite Hdis.
  unfold onDragHandle, onReleaseHandle. rewrite Hdis.
  cbn [target dataset_sliderId dataset_pointerId pointerId clientWidth].
  rewrite Hhas, Nat.eqb_refl. cbn [negb fst snd].
  replace (Nat.eqb (pointerId down) other) with false
    by (symmetry; apply Nat.eqb_neq; auto).
  replace (Nat.eqb other (pointerId down)) with false
    by (symmetry; apply Nat.eqb_neq; auto).
  cbn [negb dataset_pointerId dataset_sliderId target].
  rewrite Hhas. cbn [negb].
  unfold updateActiveTrack.
  destruct (activeTrack _); fields;
    (split; [apply map_get_set_eq |]);
    (split; [intros k Hk; apply map_get_set_ne; auto |]);
    repeat split; reflexivity.
Qed.

Lemma press_move_release_witness :
  let handle := onClickHandle eighths_range drag_right in
  let move := mkPointer handle 7 500 0 200 in
  map_get 2 (sliderValues (fst (onDragHandle eighths_range move)))
  = Some (dragValue eighths_range (getNormalizedValueFromClientX move)).
Proof.
  destruct (press_move_release eighths_range drag_right 500 0 200 8) as [H _].
  - reflexivity.
  - reflexivity.
  - discriminate.
  - exact H.
Defined.


(** *** Events of a key press *)

(** X12.  A key press on an unknown handle does nothing.  On a known handle
    the default is prevented exactly for the handled keys, [sl-input] and
    [sl-change] are emitted when the handle's value is numerically
    different afterwards, and otherwise nothing is emitted and the state is
    as before. *)
Theorem onKeyPress_events (s : SlMultiRange) (ev : KeyboardEvent) :
  let id := dataset_sliderId (key_target ev) in
  let s' := fst (fst (onKeyPress s ev)) in
  let events := snd (fst (onKeyPress s ev)) in
  let prevented := snd (onKeyPress s ev) in
  match map_get id (sliderValues s) with
  | None => s' = s /\ events = [] /\ prevented = false
  | Some old =>
      (prevented = true <-> keyValue s (key ev) old <> None) /\
      match map_get id (sliderValues s') with
      | None => False
      | Some new =>
          (~ new == old -> events = [sl_input; sl_change]) /\
          (new == old -> events = [] /\ s' = s)
      end
  end.
Proof.
  cbv zeta. unfold onKeyPress.
  destruct (map_get _ (sliderValues s)) as [old |] eqn:Hget; [| repeat split].
  destruct (keyValue s (key ev) old) as [v |] eqn:Hkey; cbn [fst snd].
  - destruct (Qeq_bool v old) eqn:E; cbn [negb fst snd].
    + split; [split; [discriminate | reflexivity] |].
      rewrite Hget. split; [| intros _; split; reflexivity].
      intros Hne. exfalso. apply Hne. reflexivity.
    + split; [split; [discriminate | reflexivity] |].
      apply Qeq_bool_false in E.
      unfold updateActiveTrack.
      destruct (activeTrack _); fields; rewrite map_get_set_eq;
        (split; [intros _; reflexivity | intros Heq; contradiction]).
  - split; [split; [discriminate | intros H; exfalso; apply H; reflexivity] |].
    rewrite Hget. split; [| intros _; split; reflexivity].
    intros Hne. exfalso. apply Hne. reflexivity.
Qed.

Lemma onKeyPress_events_witness :
  snd (fst (onKeyPress eighths_range (mkKey (mkHandle 1 None 20) "End")))
  = [sl_input; sl_change].
Proof.
  pose proof (onKeyPress_events eighths_range (mkKey (mkHandle 1 None 20) "End")) as H.
  cbv zeta in H.
  change (map_get (dataset_sliderId (key_target (mkKey (mkHandle 1 None 20) "End")))
            (sliderValues eighths_range)) with (Some 0) in H.
  destruct H as [_ H].
  change (map_get (dataset_sliderId (key_target (mkKey (mkHandle 1 None 20) "End")))
            (sliderValues
               (fst (fst (onKeyPress eighths_range
                            (mkKey (mkHandle 1 None 20) "End"))))))
    with (Some 8) in H.
  destruct H as [H _]. apply H. intros Heq. discriminate Heq.
Defined.

End MultiRangeMore.

(** ** Tree selection *)

Module TreeMore.
Import Tree TreeFacts.

Local Close Scope Q_scope.
Local Open Scope nat_scope.

(** *** Lists of items in document order *)

Lemma filter_seq_In (f : nat -> bool) (n i : nat) :
  In i (List.filter f (List.seq 0 n)) <-> i < n /\ f i = true.
Proof. rewrite filter_In, in_seq. intuition lia. Qed.

Lemma filter_seq_sorted (f : nat -> bool) (a n : nat) :
  StronglySorted lt (List.filter f (List.seq a n)).
Proof.
  revert a. induction n as [| n IH]; intros a; [constructor |].
  cbn [List.seq List.filter].
  destruct (f a); [| apply IH].
  constructor; [apply IH |].
  apply List.Forall_forall. intros j Hj.
  apply filter_In in Hj. destruct Hj as [Hj _]. apply in_seq in Hj. lia.
Qed.

(** X13.  [selectedItems] holds exactly the positions of the selected items
    of the tree, in document order and without repetition. *)
Theorem selectedItems_spec (t : SlTree) :
  (forall i, In i (selectedItems t) <->
             i < length (treeItems t) /\ prop selected i (treeItems t) = true) /\
  StronglySorted lt (selectedItems t).
Proof.
  split.
  - intros i. unfold selectedItems. apply filter_seq_In.
  - apply filter_seq_sorted.
Qed.

(** *** Changing the selection mode *)

(** X14.  [handleSelectionChange] keeps the mode, makes every item
    selectable exactly in multiple mode, and changes no other flag: the
    selected and the focusable items are the same. *)
Theorem handleSelectionChange_spec (t : SlTree) :
  let t' := handleSelectionChange t in
  selection t' = selection t /\
  (forall i, i < length (treeItems t) ->
     prop selectable i (treeItems t')
     = Selection_eqb (selection t) multiple) /\
  List.map (set_selectable false) (treeItems t')
  = List.map (set_selectable false) (treeItems t) /\
  selectedItems t' = selectedItems t /\
  getFocusableItems t' = getFocusableItems t.
Proof.
  cbv zeta. unfold handleSelectionChange. cbn [selection treeItems].
  set (b := Selection_eqb (selection t) multiple).
  assert (Hlook : forall i, List.map (set_selectable b) (treeItems t) !! i
                            = set_selectable b <$> treeItems t !! i).
  { intros i. change (List.map (set_selectable b)) with (fmap (M := list) (set_selectable b)).
    apply list_lookup_fmap. }
  assert (Hprop : forall (f : SlTreeItem -> bool) i,
             (forall it, f (set_selectable b it) = f it) ->
             prop f i (List.map (set_selectable b) (treeItems t))
             = prop f i (treeItems t)).
  { intros f i Hf. unfold prop. rewrite Hlook.
    destruct (treeItems t !! i); simpl; [apply Hf | reflexivity]. }
  split; [reflexivity |]. split; [| split; [| split]].
  - intros i Hi. unfold prop. rewrite Hlook.
    destruct (lookup_lt_is_Some_2 _ _ Hi) as [it Hit]. rewrite Hit. reflexivity.
  - rewrite List.map_map. apply List.map_ext. intros it. reflexivity.
  - unfold selectedItems. cbn [treeItems]. rewrite List.length_map.
    apply List.filter_ext. intros i. apply Hprop. reflexivity.
  - unfold getFocusableItems. cbn [treeItems]. rewrite List.length_map.
    apply List.filter_ext. intros i.
    rewrite (Hprop disabled) by reflexivity.
    assert (Hpar : parentItemOf i (List.map (set_selectable b) (treeItems t))
                   = parentItemOf i (treeItems t)).
    { unfold parentItemOf. rewrite Hlook. destruct (treeItems t !! i); reflexivity. }
    rewrite Hpar. destruct (parentItemOf i (treeItems t)) as [p |]; [| reflexivity].
    rewrite (Hprop expanded), (Hprop loading) by reflexivity. reflexivity.
Qed.

Lemma handleSelectionChange_spec_witness :
  prop selectable 1 (treeItems (handleSelectionChange collapsed_grandparent)) = false.
Proof.
  destruct (handleSelectionChange_spec collapsed_grandparent) as (_ & H & _).
  apply (H 1%nat). simpl. lia.
Defined.


(** *** Selection outside multiple mode *)

Lemma alter_twice_id (f : SlTreeItem -> SlTreeItem) (i : nat) (d : list SlTreeItem) :
  (forall it, f (f it) = it) -> alter f i (alter f i d) = d.
Proof.
  intros Hf. apply list_eq. intros j.
  destruct (decide (i = j)) as [-> | Hne].
  - rewrite !list_lookup_alter_eq. destruct (d !! j); simpl; [rewrite Hf |]; reflexivity.
  - rewrite !list_lookup_alter_ne by exact Hne. reflexivity.
Qed.

Lemma prop_alter_other (f : SlTreeItem -> bool) (g : SlTreeItem -> SlTreeItem)
    (i j : nat) (d : list SlTreeItem) :
  (forall it, f (g it) = f it) -> prop f j (alter g i d) = prop f j d.
Proof.
  intros Hfg. unfold prop. destruct (decide (i = j)) as [-> | Hne].
  - rewrite list_lookup_alter_eq. destruct (d !! j); simpl; [apply Hfg | reflexivity].
  - rewrite list_lookup_alter_ne by exact Hne. reflexivity.
Qed.

(** X15.  In leaf mode, [selectItem] on an item with children toggles its
    [expanded] flag, leaves every other item and the selection as they are,
    announces the unchanged selection, and a second call restores the
    tree. *)
Theorem selectItem_leaf_on_branch (t : SlTree) (i : nat) :
  selection t = leaf ->
  i < length (treeItems t) ->
  isLeaf i (treeItems t) = false ->
  exists t' : SlTree,
    selectItem i t = Some (t', selectedItems t) /\
    selectedItems t' = selectedItems t /\
    prop expanded i (treeItems t') = negb (prop expanded i (treeItems t)) /\
    (forall j, j <> i -> treeItems t' !! j = treeItems t !! j) /\
    selectItem i t' = Some (t, selectedItems t).
Proof.
  intros Hsel Hi Hleaf. destruct t as [sel d]. cbn [selection treeItems] in *. subst sel.
  set (toggle := fun it : SlTreeItem => set_expanded (negb (expanded it)) it).
  set (d' := alter toggle i d).
  assert (Hsk : same_skeleton d d').
  { subst d'. apply same_skeleton_alter. intros it. reflexivity. }
  assert (Hitems : selectedItems (mkTree leaf d') = selectedItems (mkTree leaf d)).
  { unfold selectedItems. cbn [treeItems]. subst d'. rewrite length_alter.
    apply List.filter_ext. intros j. apply prop_alter_other. intros it. reflexivity. }
  assert (Hleaf' : isLeaf i d' = false).
  { unfold isLeaf. rewrite (same_skeleton_children _ _ _ _ Hsk). exact Hleaf. }
  assert (Hback : alter toggle i d' = d).
  { subst d'. apply alter_twice_id. intros [p s i0 ds e l lo sl]. unfold toggle, set_expanded.
    cbn. rewrite negb_involutive. reflexivity. }
  exists (mkTree leaf d').
  unfold selectItem, with_items. cbn [selection treeItems Selection_eqb orb].
  rewrite Hleaf, Hleaf'. fold toggle. fold d'. rewrite Hback, Hitems.
  split; [reflexivity |]. split; [reflexivity |]. split; [| split; [| reflexivity]].
  - destruct (lookup_lt_is_Some_2 d i Hi) as [it Hit].
    subst d'. unfold prop. rewrite list_lookup_alter_eq, Hit. reflexivity.
  - intros j Hj. subst d'. apply list_lookup_alter_ne. auto.
Qed.

Lemma selectItem_leaf_on_branch_witness :
  exists t' : SlTree,
    selectItem 0 (mkTree leaf (treeItems mixed_pair))
    = Some (t', selectedItems (mkTree leaf (treeItems mixed_pair))) /\
    selectItem 0 t'
    = Some (mkTree leaf (treeItems mixed_pair),
            selectedItems (mkTree leaf (treeItems mixed_pair))).
Proof.
  destruct (selectItem_leaf_on_branch (mkTree leaf (treeItems mixed_pair)) 0)
    as (t' & H1 & _ & _ & _ & H2).
  - reflexivity.
  - simpl. lia.
  - reflexivity.
  - exists t'. split; [exact H1 | exact H2].
Defined.

(** X16.  Outside multiple mode, in single mode or on a leaf, [selectItem]
    on an item of the tree leaves exactly that item selected, announces it
    alone, and changes no flag other than [selected]. *)
Theorem selectItem_exclusive (t : SlTree) (i : nat) :
  selection t <> multiple ->
  selection t = single \/ isLeaf i (treeItems t) = true ->
  i < length (treeItems t) ->
  exists t' : SlTree,
    selectItem i t = Some (t', [i]) /\
    selection t' = selection t /\
    selectedItems t' = [i] /\
    (forall j, prop selected j (treeItems t') = Nat.eqb j i
               \/ length (treeItems t) <= j) /\
    List.map (set_selected false) (treeItems t')
    = List.map (set_selected false) (treeItems t).
Proof.
  intros Hmul Hmode Hi. destruct t as [sel d]. cbn [selection treeItems] in *.
  set (d' := imap (fun j it => if negb (Nat.eqb j i) then set_selected false it else it)
                  (alter (set_selected true) i d)).
  assert (Hlen : length d' = length d).
  { subst d'. rewrite length_imap, length_alter. reflexivity. }
  assert (Hprop : forall j, j < length d -> prop selected j d' = Nat.eqb j i).
  { intros j Hj. subst d'. unfold prop. rewrite list_lookup_imap.
    destruct (Nat.eqb j i) eqn:E.
    - apply Nat.eqb_eq in E. subst j. rewrite list_lookup_alter_eq.
      destruct (lookup_lt_is_Some_2 d i Hi) as [it Hit]. rewrite Hit. reflexivity.
    - apply Nat.eqb_neq in E. rewrite list_lookup_alter_ne by auto.
      destruct (d !! j); reflexivity. }
  assert (Hitems : selectedItems (mkTree sel d') = [i]).
  { unfold selectedItems. cbn [treeItems]. rewrite Hlen.
    rewrite (filter_seq_single _ i 0 (length d)).
    - replace (0 <=? i) with true by (symmetry; apply Nat.leb_le; lia).
      replace (i <? 0 + length d) with true by (symmetry; apply Nat.ltb_lt; lia).
      reflexivity.
    - intros j Hj. apply Hprop. lia. }
  assert (Hrun : selectItem i (mkTree sel d) = Some (mkTree sel d', [i])).
  { unfold selectItem, syncTreeItems, with_items. cbn [selection treeItems].
    assert (Hm : Selection_eqb sel multiple = false) by (destruct sel; [| congruence |]; reflexivity).
    rewrite Hm.
    assert (Hs : Selection_eqb sel single || isLeaf i d = true).
    { destruct Hmode as [-> | ->]; [reflexivity | apply orb_true_r]. }
    rewrite Hs. fold d'. rewrite Hitems. reflexivity. }
  exists (mkTree sel d'). cbn [selection treeItems].
  split; [exact Hrun |]. split; [reflexivity |]. split; [exact Hitems |]. split.
  - intros j. destruct (Nat.lt_ge_cases j (length d)) as [Hj | Hj]; [left | right; exact Hj].
    apply Hprop. exact Hj.
  - apply list_eq. intros j.
    change (List.map (set_selected false)) with (fmap (M := list) (set_selected false)).
    rewrite !list_lookup_fmap. subst d'. rewrite list_lookup_imap.
    destruct (decide (i = j)) as [-> | Hne].
    + rewrite list_lookup_alter_eq, Nat.eqb_refl. destruct (d !! j); reflexivity.
    + rewrite list_lookup_alter_ne by exact Hne.
      destruct (d !! j) as [it |]; [| reflexivity]. simpl.
      destruct (negb (Nat.eqb j i)); reflexivity.
Qed.

Lemma selectItem_exclusive_witness :
  exists t' : SlTree,
    selectItem 2 (mkTree leaf (treeItems mixed_pair)) = Some (t', [2]) /\
    selectedItems t' = [2].
Proof.
  destruct (selectItem_exclusive (mkTree leaf (treeItems mixed_pair)) 2)
    as (t' & H1 & _ & H2 & _).
  - discriminate.
  - right. reflexivity.
  - simpl. lia.
  - exists t'. split; [exact H1 | exact H2].
Defined.


(** *** What the checkbox walks write *)

Lemma syncAncestors_writes_checks_only (fuel i : nat) (d d' : list SlTreeItem) :
  syncAncestors fuel i d = Some d' ->
  List.map unchecked d' = List.map unchecked d.
Proof.
  revert i d d'. induction fuel as [| fuel IH]; intros i d d' Hrun; [discriminate |].
  cbn [syncAncestors] in Hrun.
  destruct (parentItemOf i d) as [p |]; [| inversion Hrun; reflexivity].
  apply IH in Hrun. rewrite Hrun.
  rewrite !map_alter_erased; [reflexivity | |]; intros it; reflexivity.
Qed.

Lemma syncDescendants_writes_checks_only (fuel i : nat) (d d' : list SlTreeItem) :
  syncDescendants fuel i d = Some d' ->
  List.map unchecked d' = List.map unchecked d.
Proof.
  intros Hrun. apply syncDescendants_writes_selected_only in Hrun.
  assert (Hu : forall l, List.map unchecked l
                 = List.map (set_indeterminate false) (List.map (set_selected false) l)).
  { intros l. rewrite List.map_map. apply List.map_ext. intros it. reflexivity. }
  rewrite !Hu, Hrun. reflexivity.
Qed.

(** X17.  Whenever [syncCheckboxes] returns, the tree has as many items and
    every item has the parent and the [disabled], [expanded], [lazy],
    [loading] and [selectable] flags it had; and it returns on every tree
    in document order. *)
Theorem syncCheckboxes_frame (i : nat) (d : list SlTreeItem) :
  match syncCheckboxes i d with
  | Some d' =>
      List.map unchecked d' = List.map unchecked d /\
      length d' = length d /\
      (forall j, parentItemOf j d' = parentItemOf j d /\
                 prop disabled j d' = prop disabled j d /\
                 prop expanded j d' = prop expanded j d /\
                 prop lazy j d' = prop lazy j d /\
                 prop loading j d' = prop loading j d /\
                 prop selectable j d' = prop selectable j d)
  | None => ~ document_order d
  end.
Proof.
  unfold syncCheckboxes.
  destruct (syncAncestors (S (length d)) i d) as [d1 |] eqn:H1.
  - destruct (syncDescendants (S (length d1)) i d1) as [d2 |] eqn:H2.
    + apply syncAncestors_writes_checks_only in H1.
      apply syncDescendants_writes_checks_only in H2.
      assert (H : List.map unchecked d2 = List.map unchecked d) by congruence.
      split; [exact H |]. split.
      * apply (f_equal (@length _)) in H. rewrite !List.length_map in H. exact H.
      * intros j.
        assert (Hj : unchecked <$> d2 !! j = unchecked <$> d !! j).
        { rewrite <- !list_lookup_fmap.
          change (fmap (M := list) unchecked) with (List.map unchecked).
          rewrite H. reflexivity. }
        unfold parentItemOf, prop.
        destruct (d2 !! j) as [[p s i0 ds e l lo sl] |],
                 (d !! j) as [[p' s' i0' ds' e' l' lo' sl'] |];
          simpl in Hj; try discriminate; [| repeat split].
        unfold unchecked, set_selected, set_indeterminate in Hj. cbn in Hj.
        inversion Hj; subst. repeat split.
    + intros Hwf.
      assert (Hsk : same_skeleton d d1).
      { apply syncAncestors_writes_checks_only in H1.
        unfold same_skeleton.
        assert (Hu : forall l, List.map skeleton l = List.map skeleton (List.map unchecked l)).
        { intros l. rewrite List.map_map. apply List.map_ext. intros it. reflexivity. }
        rewrite (Hu d1), (Hu d), H1. reflexivity. }
      destruct (syncDescendants_spec (S (length d1)) i d1) as (d2 & Hrun & _);
        [eapply same_skeleton_order; eauto | lia | lia |].
      congruence.
  - intros Hwf.
    destruct (Nat.lt_ge_cases i (length d)) as [Hi | Hi].
    + destruct (syncAncestors_spec (S (length d)) i d Hwf) as (d1 & Hrun & _); [lia |].
      congruence.
    + cbn [syncAncestors] in H1. unfold parentItemOf in H1.
      rewrite lookup_ge_None_2 in H1 by lia. discriminate.
Qed.

(** *** Descendants after a checkbox walk *)

(** X18.  On a tree in document order, [syncCheckboxes] leaves the changed
    item as it is, and afterwards an item below it is selected exactly when
    the changed item is selected and neither that item nor any item in
    between is disabled. *)
Theorem syncCheckboxes_descendants (i : nat) (d : list SlTreeItem) :
  document_order d ->
  i < length d ->
  exists d' : list SlTreeItem,
    syncCheckboxes i d = Some d' /\
    d' !! i = d !! i /\
    (forall j, ancestor d i j ->
       (prop selected j d' = true <->
        prop selected i d = true /\ enabled_below d i j)).
Proof.
  intros Hwf Hi.
  destruct (syncCheckboxes_spec i d Hwf Hi) as (d' & Hrun & Hsk & Hself & _ & Hdesc & _).
  exists d'. split; [exact Hrun |]. split; [exact Hself |].
  assert (Hi' : prop selected i d' = prop selected i d)
    by (apply prop_lookup_eq; exact Hself).
  intros j Ha. induction Ha as [j Hp | j p Hp Ha IH].
  - rewrite (Hdesc j i (ancestor_parent _ _ _ Hp) Hp), Hi'.
    rewrite andb_true_iff, negb_true_iff. split.
    + intros [Hd Hs]. split; [exact Hs |]. apply enabled_child; assumption.
    + intros [Hs He]. split; [| exact Hs].
      inversion He as [j' Hp' Hd | j' p' Hp' _ Hd]; subst; exact Hd.
  - rewrite (Hdesc j p (ancestor_above _ _ _ _ Hp Ha) Hp).
    rewrite andb_true_iff, negb_true_iff, IH. split.
    + intros [Hd [Hs He]]. split; [exact Hs |].
      eapply enabled_further; eauto.
    + intros [Hs He]. inversion He as [j' Hp' Hd | j' p' Hp' He' Hd]; subst.
      * assert (p = i) by congruence. subst p.
        apply (ancestor_lt _ _ _ Hwf) in Ha. lia.
      * assert (p' = p) by congruence. subst p'. tauto.
Qed.

Lemma syncCheckboxes_descendants_witness :
  exists d' : list SlTreeItem,
    syncCheckboxes 0 (treeItems half_selected_branch) = Some d' /\
    d' !! 0 = treeItems half_selected_branch !! 0.
Proof.
  destruct (syncCheckboxes_descendants 0 (treeItems half_selected_branch))
    as (d' & H1 & H2 & _).
  - apply document_orderb_spec. reflexivity.
  - simpl. lia.
  - exists d'. split; [exact H1 | exact H2].
Defined.


(** *** Keyboard navigation *)

Local Open Scope Z_scope.

Ltac keys :=
  cbn [List.existsb];
  repeat match goal with
  | |- context [String.eqb ?a ?b] =>
      let v := eval vm_compute in (String.eqb a b) in
      lazymatch v with
      | true => change (String.eqb a b) with true
      | false => change (String.eqb a b) with false
      end
  end;
  rewrite ?andb_false_r, ?andb_true_r;
  cbn [negb orb andb].

Lemma getFocusableItems_sorted (t : SlTree) :
  StronglySorted lt (getFocusableItems t).
Proof. apply filter_seq_sorted. Qed.

Lemma sorted_lt_NoDup (l : list nat) : StronglySorted lt l -> List.NoDup l.
Proof.
  induction 1 as [| x l _ IH Hx]; constructor; [| exact IH].
  intros Hin. rewrite List.Forall_forall in Hx. specialize (Hx x Hin). lia.
Qed.

Lemma findIndex_lower (p : nat -> bool) (items : list nat) :
  -1 <= findIndex p items.
Proof.
  induction items as [| x items IH]; simpl; [lia |].
  destruct (p x); [lia |]. destruct (findIndex p items <? 0) eqn:E; lia.
Qed.

Lemma findIndex_missing (p : nat -> bool) (items : list nat) :
  (forall x, In x items -> p x = false) -> findIndex p items = -1.
Proof.
  induction items as [| x items IH]; intros Hp; simpl; [reflexivity |].
  rewrite (Hp x) by (left; reflexivity).
  rewrite IH by (intros y Hy; apply Hp; right; exact Hy). reflexivity.
Qed.

Lemma findIndex_nth (a : nat) (items : list nat) (k : nat) :
  List.NoDup items ->
  nth_error items k = Some a ->
  findIndex (fun item => Nat.eqb a item) items = Z.of_nat k.
Proof.
  revert k. induction items as [| x items IH]; intros k Hnd Hk.
  - destruct k; discriminate.
  - inversion Hnd as [| ? ? Hnotin Hnd']; subst. simpl.
    destruct k as [| k]; simpl in Hk.
    + inversion Hk; subst. rewrite Nat.eqb_refl. reflexivity.
    + assert (Hne : Nat.eqb a x = false).
      { apply Nat.eqb_neq. intros ->. apply Hnotin. eapply nth_error_In; eauto. }
      rewrite Hne, (IH k Hnd' Hk).
      replace (Z.of_nat k <? 0) with false by (symmetry; apply Z.ltb_ge; lia).
      lia.
Qed.

Lemma item_at_nat (items : list nat) (k : nat) :
  item_at items (Z.of_nat k) = nth_error items k.
Proof.
  unfold item_at. replace (Z.of_nat k <? 0) with false
    by (symmetry; apply Z.ltb_ge; lia).
  rewrite Nat2Z.id. reflexivity.
Qed.

Lemma item_at_negative (items : list nat) : item_at items (-1) = None.
Proof. reflexivity. Qed.

Lemma focusItemAt_nat (items : list nat) (index : Z) :
  items <> [] ->
  focusItemAt items index
  = nth_error items
      (Nat.min (Z.to_nat index) (List.length items - 1)).
Proof.
  intros Hne. unfold focusItemAt, clamp.
  assert (Hlen : (0 < List.length items)%nat)
    by (destruct items; [congruence | simpl; lia]).
  destruct (index <? 0) eqn:E0.
  - apply Z.ltb_lt in E0.
    change (item_at items 0) with (item_at items (Z.of_nat 0)).
    rewrite item_at_nat.
    replace (Z.to_nat index) with 0%nat by lia. reflexivity.
  - apply Z.ltb_ge in E0.
    destruct (Z.of_nat (List.length items) - 1 <? index) eqn:E1.
    + apply Z.ltb_lt in E1.
      replace (Z.of_nat (List.length items) - 1)
        with (Z.of_nat (List.length items - 1)) by lia.
      rewrite item_at_nat. f_equal. lia.
    + apply Z.ltb_ge in E1.
      replace index with (Z.of_nat (Z.to_nat index)) at 1 by lia.
      rewrite item_at_nat. f_equal. lia.
Qed.

Lemma focusItemAt_In (items : list nat) (index : Z) (f : nat) :
  focusItemAt items index = Some f -> In f items.
Proof.
  unfold focusItemAt, item_at.
  destruct (_ <? 0); [discriminate |]. apply nth_error_In.
Qed.

(** X19.  Whenever a key press moves the focus, the item focused is one of
    the focusable items, the tree is unchanged and no selection is
    announced; a selection announced by a key press is the list of selected
    items of the resulting tree. *)
Theorem handleKeyDown_focus_target
    (key dir : string) (activeElement : option nat) (t : SlTree) :
  match handleKeyDown key dir activeElement t with
  | Some (key_handled t' (Some f) change) =>
      In f (getFocusableItems t) /\ t' = t /\ change = None
  | Some (key_handled t' None (Some sel)) => sel = selectedItems t'
  | _ => True
  end.
Proof.
  unfold handleKeyDown.
  repeat match goal with
  | |- context [if ?b then _ else _] =>
      lazymatch b with
      | context [if _ then _ else _] => fail
      | _ => destruct b
      end
  | |- context [match item_at ?l ?k with _ => _ end] =>
      destruct (item_at l k)
  end;
  try exact I;
  try (match goal with
       | |- context [focusItemAt ?l ?k] =>
           let E := fresh "E" in
           destruct (focusItemAt l k) as [f |] eqn:E;
           [apply focusItemAt_In in E; auto | exact I]
       end).
  all: unfold selectItem;
    repeat match goal with
    | |- context [match ?x with _ => _ end] =>
        lazymatch x with
        | context [match _ with _ => _ end] => fail
        | _ => destruct x
        end
    end; try exact I; reflexivity.
Qed.


Lemma nonempty_length (items : list nat) (k : nat) (a : nat) :
  nth_error items k = Some a ->
  items <> [] /\ (0 <? List.length items)%nat = true /\ (k < List.length items)%nat.
Proof.
  intros Hk. assert (Hlt : (k < List.length items)%nat)
    by (apply nth_error_Some; congruence).
  split; [intros ->; simpl in Hlt; lia |]. split; [apply Nat.ltb_lt; lia | exact Hlt].
Qed.

(** X20.  With the focus on the [k]-th focusable item, ArrowDown focuses the
    next focusable item and stays on the last one, ArrowUp focuses the
    previous one and stays on the first, Home and End focus the first and
    the last; with no item focused ArrowDown and ArrowUp focus the first. *)
Theorem handleKeyDown_vertical (dir : string) (t : SlTree) (k a : nat) :
  let items := getFocusableItems t in
  let last := (List.length items - 1)%nat in
  nth_error items k = Some a ->
  handleKeyDown "ArrowDown" dir (Some a) t
  = Some (key_handled t (nth_error items (Nat.min (k + 1) last)) None) /\
  handleKeyDown "ArrowUp" dir (Some a) t
  = Some (key_handled t (nth_error items (k - 1)) None) /\
  handleKeyDown "Home" dir (Some a) t
  = Some (key_handled t (nth_error items 0) None) /\
  handleKeyDown "End" dir (Some a) t
  = Some (key_handled t (nth_error items last) None) /\
  handleKeyDown "ArrowDown" dir None t
  = Some (key_handled t (nth_error items 0) None) /\
  handleKeyDown "ArrowUp" dir None t
  = Some (key_handled t (nth_error items 0) None).
Proof.
  intros items last Hk.
  destruct (nonempty_length _ _ _ Hk) as (Hne & Hpos & Hlt).
  assert (Hidx : findIndex (fun item => Nat.eqb a item) items = Z.of_nat k).
  { apply findIndex_nth; [| exact Hk].
    apply sorted_lt_NoDup, getFocusableItems_sorted. }
  assert (Hnone : findIndex (fun _ : nat => false) items = -1)
    by (apply findIndex_missing; reflexivity).
  unfold handleKeyDown. keys. fold items. rewrite Hpos, Hidx, Hnone.
  rewrite !(focusItemAt_nat items) by exact Hne. fold last.
  repeat split; repeat f_equal; subst last; lia.
Qed.

Lemma handleKeyDown_vertical_witness :
  handleKeyDown "ArrowDown" "ltr" (Some 2%nat) collapsed_grandparent
  = Some (key_handled collapsed_grandparent (Some 2%nat) None).
Proof.
  destruct (handleKeyDown_vertical "ltr" collapsed_grandparent 1 2) as [H _].
  - reflexivity.
  - exact H.
Defined.


Lemma active_item_found (t : SlTree) (a : nat) :
  In a (getFocusableItems t) ->
  (0 <? List.length (getFocusableItems t))%nat = true /\
  item_at (getFocusableItems t)
    (findIndex (fun item => Nat.eqb a item) (getFocusableItems t)) = Some a.
Proof.
  intros Hin. apply List.In_nth_error in Hin. destruct Hin as [k Hk].
  destruct (nonempty_length _ _ _ Hk) as (_ & Hpos & _).
  split; [exact Hpos |].
  rewrite (findIndex_nth a _ k); [| apply sorted_lt_NoDup, getFocusableItems_sorted | exact Hk].
  rewrite item_at_nat. exact Hk.
Qed.

Lemma In_getFocusableItems (t : SlTree) (i : nat) :
  In i (getFocusableItems t) <->
  (i < length (treeItems t))%nat /\
  prop disabled i (treeItems t) = false /\
  match parentItemOf i (treeItems t) with
  | None => True
  | Some parent =>
      prop expanded parent (treeItems t) = true /\
      prop loading parent (treeItems t) = false
  end.
Proof.
  unfold getFocusableItems. rewrite filter_seq_In.
  destruct (prop disabled i (treeItems t)); [intuition discriminate |].
  destruct (parentItemOf i (treeItems t)) as [p |]; [| intuition].
  rewrite andb_true_iff, negb_true_iff. intuition.
Qed.

(** X21.  On a focused item with children, the expanding arrow (Right in
    ltr, Left in rtl) opens a collapsed item and the collapsing arrow closes
    an expanded one, without moving the focus.  Once opened, a child is
    focusable exactly when it is not disabled and the item is not loading;
    once closed, no child is focusable. *)
Theorem handleKeyDown_expand_collapse (t : SlTree) (a : nat) :
  In a (getFocusableItems t) ->
  isLeaf a (treeItems t) = false ->
  let opened := with_items t (alter (set_expanded true) a (treeItems t)) in
  let closed := with_items t (alter (set_expanded false) a (treeItems t)) in
  (prop expanded a (treeItems t) = false ->
   handleKeyDown "ArrowRight" "ltr" (Some a) t
   = Some (key_handled opened None None) /\
   handleKeyDown "ArrowLeft" "rtl" (Some a) t
   = Some (key_handled opened None None)) /\
  (prop expanded a (treeItems t) = true ->
   handleKeyDown "ArrowLeft" "ltr" (Some a) t
   = Some (key_handled closed None None) /\
   handleKeyDown "ArrowRight" "rtl" (Some a) t
   = Some (key_handled closed None None)) /\
  (forall c, parentItemOf c (treeItems t) = Some a ->
     (In c (getFocusableItems opened) <->
      prop disabled c (treeItems t) = false /\
      prop loading a (treeItems t) = false) /\
     ~ In c (getFocusableItems closed)).
Proof.
  intros Hin Hleaf opened closed.
  destruct (active_item_found t a Hin) as [Hpos Hact].
  apply In_getFocusableItems in Hin. destruct Hin as (Ha & _).
  split; [| split].
  - intros Hexp. unfold handleKeyDown. keys.
    rewrite Hpos, Hact, Hexp, Hleaf. split; reflexivity.
  - intros Hexp. unfold handleKeyDown. keys.
    rewrite Hpos, Hact, Hexp, Hleaf. split; reflexivity.
  - intros c Hc.
    assert (Hclen : (c < length (treeItems t))%nat)
      by (eapply parentItemOf_lt_length; eauto).
    assert (Hpar : forall b, parentItemOf c (alter (set_expanded b) a (treeItems t))
                             = Some a).
    { intros b. rewrite <- Hc. apply same_skeleton_parent.
      apply same_skeleton_alter. intros it. reflexivity. }
    assert (Hexp : forall b, prop expanded a (alter (set_expanded b) a (treeItems t)) = b).
    { intros b. unfold prop. rewrite list_lookup_alter_eq.
      destruct (lookup_lt_is_Some_2 _ _ Ha) as [it Hit]. rewrite Hit. reflexivity. }
    split.
    + rewrite In_getFocusableItems. subst opened. unfold with_items. cbn [treeItems].
      rewrite length_alter, Hpar, Hexp.
      rewrite !prop_alter_other by (intros it; reflexivity).
      intuition.
    + rewrite In_getFocusableItems. subst closed. unfold with_items. cbn [treeItems].
      rewrite Hpar, Hexp. intros (_ & _ & Hf & _). discriminate.
Qed.

Lemma handleKeyDown_expand_collapse_witness :
  handleKeyDown "ArrowRight" "ltr" (Some 0%nat) collapsed_grandparent
  = Some (key_handled
            (with_items collapsed_grandparent
               (alter (set_expanded true) 0%nat (treeItems collapsed_grandparent)))
            None None).
Proof.
  destruct (handleKeyDown_expand_collapse collapsed_grandparent 0) as [H _].
  - left. reflexivity.
  - reflexivity.
  - destruct H as [H _]; [reflexivity | exact H].
Defined.

(** X22.  Enter and Space on a focused focusable item do what a click on it
    does; with no item focused, and some item focusable, they end in a
    [TypeError]. *)
Theorem handleKeyDown_select (key dir : string) (t : SlTree) (a : nat) :
  key = "Enter"%string \/ key = " "%string ->
  In a (getFocusableItems t) ->
  handleKeyDown key dir (Some a) t
  = match handleClick a t with
    | Some (t', change) => Some (key_handled t' None change)
    | None => None
    end /\
  handleKeyDown key dir None t = Some key_TypeError.
Proof.
  intros Hkey Hin.
  destruct (active_item_found t a Hin) as [Hpos Hact].
  assert (Hnone : findIndex (fun _ : nat => false) (getFocusableItems t) = -1)
    by (apply findIndex_missing; reflexivity).
  apply In_getFocusableItems in Hin. destruct Hin as (_ & Hdis & _).
  unfold handleClick. rewrite Hdis. cbn [negb].
  destruct Hkey as [-> | ->]; unfold handleKeyDown; keys;
    rewrite Hpos, Hact, Hnone; cbn [item_at Z.ltb Z.compare];
    (split; [destruct (selectItem a t) as [[t' sel] |]; reflexivity | reflexivity]).
Qed.

Lemma handleKeyDown_select_witness :
  handleKeyDown "Enter" "ltr" None collapsed_grandparent = Some key_TypeError.
Proof.
  destruct (handleKeyDown_select "Enter" "ltr" collapsed_grandparent 0) as [_ H].
  - left. reflexivity.
  - left. reflexivity.
  - exact H.
Defined.

(** X23.  A key press is ignored, without preventing its default, exactly
    when the key is not one of the eight handled keys or no item is
    focusable.  When the direction is neither ltr nor rtl the horizontal
    arrows prevent the default and do nothing else.  The arrows of rtl are
    those of ltr swapped. *)
Theorem handleKeyDown_ignored
    (key dir : string) (activeElement : option nat) (t : SlTree) :
  (handleKeyDown key dir activeElement t = Some key_ignored <->
   ~ In key ["ArrowDown"; "ArrowUp"; "ArrowRight"; "ArrowLeft";
             "Home"; "End"; "Enter"; " "]%string
   \/ getFocusableItems t = []) /\
  (dir <> "ltr"%string -> dir <> "rtl"%string ->
   getFocusableItems t <> [] ->
   handleKeyDown "ArrowLeft" dir activeElement t = Some (key_handled t None None) /\
   handleKeyDown "ArrowRight" dir activeElement t = Some (key_handled t None None)) /\
  handleKeyDown "ArrowLeft" "rtl" activeElement t
  = handleKeyDown "ArrowRight" "ltr" activeElement t /\
  handleKeyDown "ArrowRight" "rtl" activeElement t
  = handleKeyDown "ArrowLeft" "ltr" activeElement t.
Proof.
  split; [| split; [| split]].
  - unfold handleKeyDown.
    set (ks := ["ArrowDown"; "ArrowUp"; "ArrowRight"; "ArrowLeft";
                "Home"; "End"; "Enter"; " "]%string).
    destruct (List.existsb (String.eqb key) ks) eqn:Ek; cbn [negb].
    + assert (Hin : In key ks).
      { apply List.existsb_exists in Ek. destruct Ek as (k' & Hk' & He).
        apply String.eqb_eq in He. subst. exact Hk'. }
      destruct (getFocusableItems t) as [| x items] eqn:Hitems.
      * cbn. split; [intros _; right; reflexivity | reflexivity].
      * cbn [List.length Nat.ltb Nat.leb].
        split; [| intros [H | H]; [contradiction | discriminate]].
        intros H. exfalso. revert H.
        repeat match goal with
        | |- context [if ?b then _ else _] =>
            lazymatch b with
            | context [if _ then _ else _] => fail
            | _ => destruct b
            end
        | |- context [match item_at ?l ?k with _ => _ end] =>
            destruct (item_at l k)
        | |- context [match selectItem ?a ?t with _ => _ end] =>
            destruct (selectItem a t) as [[? ?] |]
        end; discriminate.
    + split; [intros _; left | reflexivity].
      intros Hin. apply Bool.not_true_iff_false in Ek. apply Ek.
      apply List.existsb_exists. exists key. split; [exact Hin | apply String.eqb_refl].
  - intros Hl Hr Hne. apply String.eqb_neq in Hl, Hr.
    assert (Hpos : (0 <? List.length (getFocusableItems t))%nat = true).
    { destruct (getFocusableItems t); [congruence | reflexivity]. }
    unfold handleKeyDown. keys. rewrite Hpos, Hl, Hr. split; reflexivity.
  - unfold handleKeyDown. keys. reflexivity.
  - unfold handleKeyDown. keys. reflexivity.
Qed.

Lemma handleKeyDown_ignored_witness :
  handleKeyDown "ArrowLeft" "auto" (Some 0%nat) collapsed_grandparent
  = Some (key_handled collapsed_grandparent None None).
Proof.
  destruct (handleKeyDown_ignored "ArrowLeft" "auto" (Some 0%nat) collapsed_grandparent)
    as (_ & H & _).
  destruct H as [H _]; [discriminate | discriminate | discriminate | exact H].
Defined.

(** *** Roving tabindex *)

Lemma focusInItem_roving (i : nat) (t : SlTree) (r : Roving) :
  roving_ok r -> roving_ok (focusInItem i t r).
Proof.
  intros Hok. unfold focusInItem.
  destruct (negb (prop disabled i (treeItems t))); [| exact Hok].
  intros j Hj. cbn [item_tabIndex lastFocusedItem] in *.
  destruct (decide (i = j)) as [-> | Hne]; [reflexivity |].
  exfalso. rewrite list_lookup_insert_ne in Hj by exact Hne.
  destruct (lastFocusedItem r) as [last |] eqn:Hlast.
  - destruct (decide (last = j)) as [-> | Hne'].
    + destruct (Nat.lt_ge_cases j (length (item_tabIndex r))) as [Hlt | Hge].
      * rewrite list_lookup_insert_eq in Hj by exact Hlt. discriminate.
      * rewrite list_insert_ge in Hj by exact Hge.
        rewrite lookup_ge_None_2 in Hj by exact Hge. discriminate.
    + rewrite list_lookup_insert_ne in Hj by exact Hne'.
      specialize (Hok j Hj). congruence.
  - specialize (Hok j Hj). congruence.
Qed.

(** X24.  If every item reachable by Tab is the last focused item, this is
    still so after a focus-in and a focus-out.  A focus-in on an enabled item
    makes it the last focused item and the only item with [tabIndex] 0, and
    gives the tree [tabIndex] -1; on a disabled item it changes nothing.  A
    focus-out to the outside gives the tree [tabIndex] 0 and leaves the
    items alone. *)
Theorem roving_tabindex (target : FocusTarget) (outside : bool)
    (t : SlTree) (r : Roving) :
  roving_ok r ->
  let r' := handleFocusIn target t r in
  roving_ok r' /\
  roving_ok (handleFocusOut outside r') /\
  length (item_tabIndex r') = length (item_tabIndex r) /\
  (forall i, target = target_item i ->
     prop disabled i (treeItems t) = false ->
     (i < length (item_tabIndex r))%nat ->
     tree_tabIndex r' = -1 /\
     lastFocusedItem r' = Some i /\
     (forall j, item_tabIndex r' !! j = Some 0 <-> j = i)) /\
  (forall i, target = target_item i ->
     prop disabled i (treeItems t) = true -> r' = r) /\
  tree_tabIndex (handleFocusOut true r') = 0 /\
  item_tabIndex (handleFocusOut outside r') = item_tabIndex r' /\
  lastFocusedItem (handleFocusOut outside r') = lastFocusedItem r'.
Proof.
  intros Hok r'.
  assert (Hok' : roving_ok r').
  { subst r'. unfold handleFocusIn. destruct target as [| i |]; [| | exact Hok].
    - destruct (lastFocusedItem r) as [last |] eqn:Hl.
      + apply focusInItem_roving. exact Hok.
      + destruct (treeItems t); [exact Hok | apply focusInItem_roving; exact Hok].
    - apply focusInItem_roving. exact Hok. }
  assert (Hlen : forall i, length (item_tabIndex (focusInItem i t r))
                           = length (item_tabIndex r)).
  { intros i. unfold focusInItem.
    destruct (negb (prop disabled i (treeItems t))); [| reflexivity].
    cbn [item_tabIndex]. destruct (lastFocusedItem r); rewrite ?length_insert; reflexivity. }
  split; [exact Hok' |]. split; [| split; [| split; [| split; [| split; [| split]]]]].
  - unfold handleFocusOut. destruct outside; [| exact Hok']. exact Hok'.
  - subst r'. unfold handleFocusIn. destruct target as [| i |]; [| apply Hlen | reflexivity].
    destruct (lastFocusedItem r); [apply Hlen |].
    destruct (treeItems t); [reflexivity | apply Hlen].
  - intros i -> Hdis Hi.
    assert (Hr' : r' = focusInItem i t r) by reflexivity.
    assert (Htab : item_tabIndex r' !! i = Some 0).
    { rewrite Hr'. unfold focusInItem. rewrite Hdis. cbn [negb item_tabIndex].
      apply list_lookup_insert_eq.
      destruct (lastFocusedItem r); rewrite ?length_insert; exact Hi. }
    assert (Hlast : lastFocusedItem r' = Some i).
    { rewrite Hr'. unfold focusInItem. rewrite Hdis. reflexivity. }
    split; [rewrite Hr'; unfold focusInItem; rewrite Hdis; reflexivity |].
    split; [exact Hlast |].
    intros j. split.
    + intros Hj. specialize (Hok' j Hj). congruence.
    + intros ->. exact Htab.
  - intros i -> Hdis. subst r'. unfold handleFocusIn, focusInItem.
    rewrite Hdis. reflexivity.
  - reflexivity.
  - unfold handleFocusOut. destruct outside; reflexivity.
  - unfold handleFocusOut. destruct outside; reflexivity.
Qed.

Lemma roving_tabindex_witness :
  let r := mkRoving 0 [-1; -1; -1] None in
  let r' := handleFocusIn (target_item 2) collapsed_grandparent r in
  roving_ok r' /\ roving_ok (handleFocusOut true r').
Proof.
  destruct (roving_tabindex (target_item 2) true collapsed_grandparent
              (mkRoving 0 [-1; -1; -1] None)) as (H1 & H2 & _).
  - intros j Hj. cbn [item_tabIndex] in Hj.
    destruct j as [| [| [| j]]]; discriminate Hj.
  - split; [exact H1 | exact H2].
Defined.

End TreeMore.

(** ** Pointer drag *)

Module DragMore.
Import Drag.

Local Open Scope Q_scope.

Lemma dispatch_move_while_dragging (container : Container) (ev : PointerEvent)
    (rs : list (Q * Q)) :
  dispatch container "pointermove" ev
    (mkSession [("pointermove"%string, move_listener);
                ("pointerup"%string, stop_listener)] rs)
  = mkSession [("pointermove"%string, move_listener);
               ("pointerup"%string, stop_listener)]
              (rs ++ [position container ev]).
Proof. reflexivity. Qed.

(** X25.  [drag] on a document without listeners registers the move and the
    stop listener and reports the initial event if there is one.  Every
    pointer move that follows is reported once, in order, relative to the
    container; the pointer-up removes both listeners and reports nothing;
    afterwards no event is reported or changes the listeners. *)
Theorem drag_session (container : Container) (initialEvent : option PointerEvent)
    (moves : list PointerEvent) (up : PointerEvent) :
  let started := run (drag container initialEvent) (mkSession [] []) in
  let dragged :=
    List.fold_left (fun st ev => dispatch container "pointermove" ev st)
                   moves started in
  let released := dispatch container "pointerup" up dragged in
  registry started
  = [("pointermove"%string, move_listener); ("pointerup"%string, stop_listener)] /\
  reports started
  = match initialEvent with
    | Some ev => [position container ev]
    | None => []
    end /\
  registry dragged = registry started /\
  reports dragged = reports started ++ List.map (position container) moves /\
  registry released = [] /\
  reports released = reports dragged /\
  (forall (type : string) (ev : PointerEvent),
     dispatch container type ev released = released).
Proof.
  cbv zeta.
  set (reg := [("pointermove"%string, move_listener);
               ("pointerup"%string, stop_listener)]).
  set (rs0 := match initialEvent with
              | Some ev => [position container ev]
              | None => []
              end).
  assert (Hstart : run (drag container initialEvent) (mkSession [] [])
                   = mkSession reg rs0).
  { destruct initialEvent; reflexivity. }
  rewrite Hstart.
  assert (Hmoves : forall rs,
            List.fold_left (fun st ev => dispatch container "pointermove" ev st)
                           moves (mkSession reg rs)
            = mkSession reg (rs ++ List.map (position container) moves)).
  { induction moves as [| ev moves IH]; intros rs; simpl.
    - rewrite List.app_nil_r. reflexivity.
    - subst reg. rewrite dispatch_move_while_dragging, IH, <- List.app_assoc.
      reflexivity. }
  rewrite Hmoves. cbn [registry reports].
  repeat split.
Qed.

End DragMore.
